(** * prefect.runtimes.make_cli: task registry and dependency resolution

    A shallow embedding of [src/prefect/runtimes/make_cli.py]: the
    [MakeCLI] registry with its [task] decorator, and the [run] command
    that walks the declared dependencies and hands the tasks to a
    [prefect.Flow].

    The flow is an external engine.  It is represented by the calls it
    receives, in order: [set_dependencies], [add_task] and [run]. *)

From stdpp Require Import gmap strings list fin_maps.

Open Scope string_scope.
Open Scope list_scope.
Open Scope nat_scope.

(** ** Python objects *)

(** A [FunctionTask] is used by identity only (as a dict key, a set
    member, an argument to the flow), so a task is its identity.  A list
    object is a reference into the heap of lists: [task] stores the very
    list it is given and appends to it in place. *)
Abbreviation Task := nat (only parsing).
Abbreviation ref := nat (only parsing).
Abbreviation Heap := (gmap nat (list string)) (only parsing).

(** The list objects [task] can get hold of: a list the caller made,
    held in the heap, or the list [self.task_order] of the registry
    itself, a different object from all of those, held in the registry
    record. *)
Inductive loc :=
  | Ref (r : ref)
  | OrderList.

(** What the [depends] keyword may be bound to: a list object of the
    caller, the list [self.task_order] itself, a tuple of names (a
    sequence that is not a list), or anything else ([None], the
    default). *)
Inductive Arg :=
  | NotAList
  | ListObj (r : ref)
  | OrderObj
  | TupleObj (xs : list string).

(** Reading the list at a location, and [l.append(x)] on it. *)
Definition list_at (h : Heap) (order : list string) (l : loc)
  : option (list string) :=
  match l with
  | Ref r => h !! r
  | OrderList => Some order
  end.

Definition append_at (h : Heap) (order : list string) (l : loc) (x : string)
  : Heap * list string :=
  match l with
  | Ref r => (alter (λ xs, xs ++ [x]) r h, order)
  | OrderList => (h, order ++ [x])
  end.

(** [new_list h xs] evaluates a list display [[x1, ..., xn]]. *)
Definition new_list (h : Heap) (xs : list string) : ref * Heap :=
  let r := fresh (dom h) in (r, <[r := xs]> h).

(** ** Insertion-ordered dictionaries

    [self.tasks] is iterated with [items()], so its order matters: a
    Python dict keeps the position of a key that is assigned again and
    puts a new key last. *)
Section Dict.
Context {V : Type}.

Fixpoint dict_get (d : list (string * V)) (k : string) : option V :=
  match d with
  | [] => None
  | (k', v) :: d' => if decide (k' = k) then Some v else dict_get d' k
  end.

Fixpoint dict_set (d : list (string * V)) (k : string) (v : V)
  : list (string * V) :=
  match d with
  | [] => [(k, v)]
  | (k', v') :: d' =>
      if decide (k' = k) then (k, v) :: d' else (k', v') :: dict_set d' k v
  end.

Definition dict_keys (d : list (string * V)) : list string := d.*1.
Definition dict_values (d : list (string * V)) : list V := d.*2.
End Dict.

(** [l.pop()]: the last element and the list without it. *)
Fixpoint pop {A} (l : list A) : option (list A * A) :=
  match l with
  | [] => None
  | x :: l' =>
      match pop l' with
      | None => Some ([], x)
      | Some (r, y) => Some (x :: r, y)
      end
  end.

(** ** The flow, and the effects of [run] *)

Inductive Call :=
  | SetDependencies (t : Task) (upstream_tasks : list Task)
  | AddTask (t : Task)
  | FlowRun.

Inductive Exn :=
  | KeyError (k : string).

(** How a computation ends: normally, with an exception, or cut off by
    the step budget of the model ([Timeout] never happens for [run], see
    [run_terminates]). *)
Inductive Res (A : Type) :=
  | Ret (a : A)
  | Raise (e : Exn)
  | Timeout.
Arguments Ret {A} a.
Arguments Raise {A} e.
Arguments Timeout {A}.

(** A computation yields the calls made on the flow, in order, and its
    end. *)
Record Eff (A : Type) := MkEff { calls : list Call; result : Res A }.
Arguments MkEff {A} calls result.
Arguments calls {A} e.
Arguments result {A} e.

Global Instance Eff_ret : MRet Eff := λ A a, MkEff [] (Ret a).

Global Instance Eff_bind : MBind Eff := λ A B f m,
  match result m with
  | Ret a => MkEff (calls m ++ calls (f a)) (result (f a))
  | Raise e => MkEff (calls m) (Raise e)
  | Timeout => MkEff (calls m) Timeout
  end.

Definition call (c : Call) : Eff unit := MkEff [c] (Ret tt).
Definition raise {A} (e : Exn) : Eff A := MkEff [] (Raise e).
Definition timeout {A} : Eff A := MkEff [] Timeout.

(** [prepend c m]: the call [c], then [m]. *)
Definition prepend {A} (c : Call) (m : Eff A) : Eff A :=
  MkEff (c :: calls m) (result m).

(** ** MakeCLI

    [self.flow] is the external engine and has no field here: what it
    is sent is what [run] yields. *)

Record MakeCLI := {
  dependencies : gmap nat loc;      (* task ↦ its list of upstream names *)
  tasks : list (string * Task);     (* fn.__name__ ↦ task *)
  task_order : list string;         (* the contents of [OrderList] *)
  implied_order : bool }.

(** [MakeCLI.__init__] *)
Definition init (implied_order : bool) : MakeCLI :=
  {| dependencies := ∅; tasks := []; task_order := [];
     implied_order := implied_order |}.

(** [MakeCLI.task], for a function named [fn].  The new [FunctionTask]
    is an object that did not exist before; every task made here becomes
    a key of [self.dependencies] at once and keys are never removed, so
    an identity outside that domain is a new one.

    [self.dependencies[t]] is the list object [depends] itself when
    [depends] is a list, be it one of the caller or [self.task_order],
    and a new empty list otherwise.  The two [append] calls act on list
    objects: on that list for the implied name, then on
    [self.task_order] for [fn.__name__]. *)
Definition task (h : Heap) (self : MakeCLI) (fn : string) (depends : Arg)
  : Task * Heap * MakeCLI :=
  let t := fresh (dom (dependencies self)) in
  let '(l, h) :=
    match depends with
    | ListObj r => (Ref r, h)
    | OrderObj => (OrderList, h)
    | NotAList | TupleObj _ => let '(r, h) := new_list h [] in (Ref r, h)
    end in
  let dependencies' := <[t := l]> (dependencies self) in
  let '(h, order) :=
    if implied_order self then
      match last (task_order self) with
      | Some prev => append_at h (task_order self) l prev
      | None => (h, task_order self)
      end
    else (h, task_order self) in
  let tasks' := dict_set (tasks self) fn t in
  let '(h, order) := append_at h order OrderList fn in
  (t, h,
   {| dependencies := dependencies';
      tasks := tasks';
      task_order := order;
      implied_order := implied_order self |}).

(** Bare [@make.task] on functions named [fns], one after the other. *)
Fixpoint register_all (h : Heap) (self : MakeCLI) (fns : list string)
  : list Task * Heap * MakeCLI :=
  match fns with
  | [] => ([], h, self)
  | fn :: fns =>
      let '(t, h, self) := task h self fn NotAList in
      let '(ts, h, self) := register_all h self fns in
      (t :: ts, h, self)
  end.

(** The names the caller declared with [depends]. *)
Definition declared (h : Heap) (self : MakeCLI) (depends : Arg)
  : option (list string) :=
  match depends with
  | NotAList => Some []
  | ListObj r => h !! r
  | OrderObj => Some (task_order self)
  | TupleObj xs => Some xs
  end.

(** The list [task] starts from: the one [depends] is, when it is a
    list, and a new empty one otherwise ([isinstance(depends, list)]). *)
Definition explicit (h : Heap) (self : MakeCLI) (depends : Arg)
  : option (list string) :=
  match depends with
  | NotAList | TupleObj _ => Some []
  | ListObj r => h !! r
  | OrderObj => Some (task_order self)
  end.

(** The list object [depends] is, when it is one. *)
Definition arg_loc (depends : Arg) : option loc :=
  match depends with
  | ListObj r => Some (Ref r)
  | OrderObj => Some OrderList
  | _ => None
  end.

(** What line 130 leaves at the end of the list of the new task: its own
    name, when that list is [self.task_order]. *)
Definition own_name (fn : string) (depends : Arg) : list string :=
  match depends with
  | OrderObj => [fn]
  | _ => []
  end.

(** What implied ordering appends. *)
Definition implied (self : MakeCLI) : list string :=
  if implied_order self then
    match last (task_order self) with
    | Some prev => [prev]
    | None => []
    end
  else [].

(** What holds of the heap and the registry between registrations: the
    stored lists exist, the registered tasks are keys of
    [self.dependencies], and [self.tasks] is a dict (one entry per key)
    holding a different task per name. *)
Record registry_ok (h : Heap) (self : MakeCLI) : Prop := {
  ok_lists : ∀ t r, dependencies self !! t = Some (Ref r) → r ∈ dom h;
  ok_tasks : ∀ n t, (n, t) ∈ tasks self → t ∈ dom (dependencies self);
  ok_keys : NoDup (dict_keys (tasks self));
  ok_values : NoDup (dict_values (tasks self)) }.

(** No task has [self.task_order] itself as its list. *)
Definition plain_lists (self : MakeCLI) : Prop :=
  ∀ t l, dependencies self !! t = Some l → l ≠ OrderList.

(** ** The [run] command *)

Section Run.
Variable h : Heap.
Variable obj : MakeCLI.

(** [obj.dependencies.get(current_t)] *)
Definition dependencies_get (t : Task) : option (list string) :=
  l ← dependencies obj !! t; list_at h (task_order obj) l.

(** Truth value of [deps]: [None] and the empty list are false. *)
Definition truthy (deps : option (list string)) : bool :=
  match deps with
  | Some (_ :: _) => true
  | _ => false
  end.

(** [[obj.tasks[t_n] for t_n in deps]] *)
Fixpoint dep_objs_of (deps : list string) : Eff (list Task) :=
  match deps with
  | [] => mret []
  | t_n :: deps' =>
      match dict_get (tasks obj) t_n with
      | None => raise (KeyError t_n)
      | Some t => ts ← dep_objs_of deps'; mret (t :: ts)
      end
  end.

Variable no_dependencies : bool.

(** The [while to_visit:] loop. *)
Fixpoint while_to_visit (fuel : nat) (to_visit : list Task)
    (alredy_fetched_deps_for : gset nat) : Eff unit :=
  match fuel with
  | 0 => timeout
  | S fuel =>
      match pop to_visit with
      | None => mret tt
      | Some (to_visit, current_t) =>
          let deps := dependencies_get current_t in
          if truthy deps && negb no_dependencies then
            if decide (current_t ∈ alredy_fetched_deps_for) then
              while_to_visit fuel to_visit alredy_fetched_deps_for
            else
              let alredy_fetched_deps_for :=
                {[current_t]} ∪ alredy_fetched_deps_for in
              dep_objs ← dep_objs_of (default [] deps);
              let to_visit := to_visit ++ dep_objs in
              call (SetDependencies current_t dep_objs);;
              while_to_visit fuel to_visit alredy_fetched_deps_for
          else
            call (AddTask current_t);;
            while_to_visit fuel to_visit alredy_fetched_deps_for
      end
  end.

Variable fuel : nat.
Variable task_names : list string.

(** The [for task_name, t in obj.tasks.items():] loop. *)
Fixpoint for_items (items : list (string * Task)) : Eff unit :=
  match items with
  | [] => mret tt
  | (task_name, t) :: items =>
      (if bool_decide (task_name ∈ task_names)
       then while_to_visit fuel [t] ∅
       else mret tt);;
      for_items items
  end.
End Run.

(** [if len(tasks) == 0: tasks = obj.tasks.keys()] *)
Definition effective (obj : MakeCLI) (task_names : list string) : list string :=
  if decide (length task_names = 0) then dict_keys (tasks obj) else task_names.

Definition run_with (fuel : nat) (h : Heap) (obj : MakeCLI)
    (task_names : list string) (no_dependencies : bool) : Eff unit :=
  let task_names := effective obj task_names in
  for_items h obj no_dependencies fuel task_names (tasks obj);;
  call FlowRun.

(** Step budget of one traversal: a task's names are fetched at most
    once, which pushes as many tasks as it has names. *)
Fixpoint names_to_fetch (h : Heap) (order : list string) (fetched : gset nat)
    (l : list (nat * loc)) : nat :=
  match l with
  | [] => 0
  | (t, r) :: l =>
      (if decide (t ∈ fetched) then 0
       else S (length (default [] (list_at h order r))))
      + names_to_fetch h order fetched l
  end.

Definition cost (h : Heap) (obj : MakeCLI) (fetched : gset nat) : nat :=
  names_to_fetch h (task_order obj) fetched (map_to_list (dependencies obj)).

Definition fuel_bound (h : Heap) (obj : MakeCLI) : nat := S (S (cost h obj ∅)).

Definition run (h : Heap) (obj : MakeCLI) (task_names : list string)
    (no_dependencies : bool) : Eff unit :=
  run_with (fuel_bound h obj) h obj task_names no_dependencies.

(** The tasks the outer loop starts a traversal from: those registered
    under one of [task_names], in the order of [obj.tasks.items()]. *)
Definition requested_tasks (obj : MakeCLI) (task_names : list string)
  : list Task :=
  (filter (λ p : string * nat, p.1 ∈ task_names) (tasks obj)).*2.

(** The names of [deps] resolved one by one through [obj.tasks]. *)
Definition resolved (obj : MakeCLI) (deps : list string) (ts : list Task) : Prop :=
  Forall2 (λ t_n t, dict_get (tasks obj) t_n = Some t) deps ts.

(** ** Dependency expansion

    [upstream_of h obj t t']: [t'] is registered under one of the names
    in the list of [t].  [unresolved h obj t k]: the list of [t] has the
    name [k], which is not a key of [obj.tasks]. *)
Definition upstream_of (h : Heap) (obj : MakeCLI) (t t' : Task) : Prop :=
  ∃ k, k ∈ default [] (dependencies_get h obj t) ∧
       dict_get (tasks obj) k = Some t'.

Definition unresolved (h : Heap) (obj : MakeCLI) (t : Task) (k : string) : Prop :=
  k ∈ default [] (dependencies_get h obj t) ∧ dict_get (tasks obj) k = None.

(** Some task that expansion from a requested task leads to has a name
    that was never registered. *)
Definition reachable_unresolved (h : Heap) (obj : MakeCLI)
    (task_names : list string) : Prop :=
  ∃ n t0 t k,
    n ∈ effective obj task_names ∧ (n, t0) ∈ tasks obj ∧
    rtc (upstream_of h obj) t0 t ∧ unresolved h obj t k.

(** Invariant of the [while] loop: the tasks whose names were fetched
    have all their names resolved, and each of their upstream tasks is
    fetched too, has nothing to fetch, or is still on the stack. *)
Definition fetched_closed (h : Heap) (obj : MakeCLI)
    (to_visit : list Task) (fetched : gset nat) : Prop :=
  ∀ t, t ∈ fetched →
    (∀ k, ¬ unresolved h obj t k) ∧
    (∀ t', upstream_of h obj t t' →
       t' ∈ fetched ∨ truthy (dependencies_get h obj t') = false ∨ t' ∈ to_visit).

(** ** What the flow has been sent *)

(** The edges declared by a call: each upstream task points to [t]. *)
Definition edges_of_call (c : Call) : list (Task * Task) :=
  match c with
  | SetDependencies t ups => (λ u, (u, t)) <$> ups
  | _ => []
  end.

Definition edges (cs : list Call) : list (Task * Task) :=
  cs ≫= edges_of_call.

Definition standalone (cs : list Call) : list Task :=
  cs ≫= λ c, match c with AddTask t => [t] | _ => [] end.

Definition expanded (cs : list Call) : list Task :=
  cs ≫= λ c, match c with SetDependencies t _ => [t] | _ => [] end.

Definition is_submission (c : Call) : bool :=
  match c with
  | FlowRun => false
  | _ => true
  end.

(** ** Example registries *)

(** [@make.task(depends=[...])] on a function named [fn]: the list
    display is evaluated, then the decorator runs. *)
Definition register_with (st : Heap * MakeCLI) (fn : string)
    (deps : list string) : Heap * MakeCLI :=
  let '(r, h) := new_list st.1 deps in
  let '(_, h, self) := task h st.2 fn (ListObj r) in
  (h, self).

(** [A] depends on [B], and [B] on a name that is never registered. *)
Definition dangling_chain : Heap * MakeCLI :=
  register_with (register_with (∅, init false) "A" ["B"]) "B" ["ghost"].

(** [A] depends on [B] and [B] depends on [A]. *)
Definition two_cycle : Heap * MakeCLI :=
  register_with (register_with (∅, init false) "A" ["B"]) "B" ["A"].

(** [A] depends on [B] and [C], which both depend on [D]. *)
Definition diamond : Heap * MakeCLI :=
  register_with
    (register_with
       (register_with
          (register_with (∅, init false) "D" [])
          "B" ["D"])
       "C" ["D"])
    "A" ["B"; "C"].

(** ** What justifies a call

    [reached_from h obj roots t]: expansion from one of [roots] leads to
    [t]. *)
Definition reached_from (h : Heap) (obj : MakeCLI) (roots : list Task)
    (t : Task) : Prop :=
  ∃ t0, t0 ∈ roots ∧ rtc (upstream_of h obj) t0 t.

(** A [set_dependencies] call is for a reached task with a non-empty
    list, and passes the tasks of the names of that list, in order; an
    [add_task] call is for a reached task that has no name to fetch, or
    is made under [--no-dependencies]. *)
Definition call_sound (h : Heap) (obj : MakeCLI) (no_dependencies : bool)
    (roots : list Task) (c : Call) : Prop :=
  match c with
  | SetDependencies t ts =>
      no_dependencies = false ∧ reached_from h obj roots t ∧
      ∃ deps, dependencies_get h obj t = Some deps ∧ deps ≠ [] ∧
              resolved obj deps ts
  | AddTask t =>
      reached_from h obj roots t ∧
      (no_dependencies = true ∨ truthy (dependencies_get h obj t) = false)
  | FlowRun => False
  end.

(** The tasks a call hands to the flow. *)
Definition mentioned (c : Call) : list Task :=
  match c with
  | SetDependencies t ts => t :: ts
  | AddTask t => [t]
  | FlowRun => []
  end.

(** The names of [self.tasks] and of [self.task_order] are the same. *)
Definition names_agree (self : MakeCLI) : Prop :=
  ∀ n, n ∈ dict_keys (tasks self) ↔ n ∈ task_order self.

(** Every name in a stored list is registered. *)
Definition lists_resolved (h : Heap) (self : MakeCLI) : Prop :=
  ∀ t xs k, dependencies_get h self t = Some xs → k ∈ xs →
            k ∈ dict_keys (tasks self).

(** ** Implied chains

    The state after bare registrations of different names [ns] with
    implied ordering: the tasks [ts] are registered under [ns], in
    order, and the list of each holds the name registered just before
    it (none for the first). *)
Definition implied_chain (h : Heap) (self : MakeCLI) (ns : list string)
    (ts : list Task) : Prop :=
  tasks self = zip ns ts ∧ length ts = length ns ∧
  ∀ i t, ts !! i = Some t →
    dependencies_get h self t
    = Some (match i with 0 => [] | S j => option_list (ns !! j) end).

(** The calls along a chain of tasks, given from the requested task
    back to the first one registered: each task gets the next one as
    its upstream, and the last one is added standalone. *)
Fixpoint chain_calls (rts : list Task) : list Call :=
  match rts with
  | [] => []
  | t :: rest =>
      match rest with
      | [] => [AddTask t]
      | u :: _ => SetDependencies t [u] :: chain_calls rest
      end
  end.

(** * Basic facts *)

Section EffFacts.
Context {A B : Type}.
Implicit Types (m : Eff A) (f : A → Eff B).

Lemma eff_eq (m1 m2 : Eff A) :
  calls m1 = calls m2 → result m1 = result m2 → m1 = m2.
Proof. destruct m1, m2; simpl; congruence. Qed.

Lemma bind_Ret m f a :
  result m = Ret a →
  m ≫= f = MkEff (calls m ++ calls (f a)) (result (f a)).
Proof. intros E. unfold mbind, Eff_bind. by rewrite E. Qed.

Lemma bind_Raise m f e :
  result m = Raise e → m ≫= f = MkEff (calls m) (Raise e).
Proof. intros E. unfold mbind, Eff_bind. by rewrite E. Qed.

Lemma bind_Timeout m f :
  result m = Timeout → m ≫= f = MkEff (calls m) Timeout.
Proof. intros E. unfold mbind, Eff_bind. by rewrite E. Qed.

Lemma bind_mret_l (a : A) f : mret a ≫= f = f a.
Proof. unfold mbind, Eff_bind. simpl. by destruct (f a). Qed.

Lemma bind_call (c : Call) (k : Eff B) : (call c;; k) = prepend c k.
Proof. done. Qed.
End EffFacts.

Section PopFacts.
Context {A : Type}.
Implicit Types (l : list A) (x : A).

Lemma pop_snoc l x : pop (l ++ [x]) = Some (l, x).
Proof. induction l as [|y l IH]; simpl; [done | by rewrite IH]. Qed.

Lemma pop_cases l : l = [] ∨ ∃ l' x, l = l' ++ [x].
Proof.
  induction l as [|y l IH] using rev_ind; [by left | right; eauto].
Qed.

Lemma pop_Some l l' x : pop l = Some (l', x) ↔ l = l' ++ [x].
Proof.
  split; [|intros ->; apply pop_snoc].
  destruct (pop_cases l) as [-> | (l0 & y & ->)]; [done|].
  rewrite pop_snoc. by intros [= -> ->].
Qed.
End PopFacts.

Section DictFacts.
Context {V : Type}.
Implicit Types (d : list (string * V)) (k : string) (v : V).

Lemma dict_get_Some_elem d k v : dict_get d k = Some v → (k, v) ∈ d.
Proof.
  induction d as [|[k' v'] d IH]; simpl; [done|].
  case_decide; [intros [= ->]; subst; left | right; auto].
Qed.

Lemma dict_get_None d k : dict_get d k = None ↔ k ∉ dict_keys d.
Proof.
  unfold dict_keys. induction d as [|[k' v'] d IH]; simpl.
  - split; [intros _; apply not_elem_of_nil | done].
  - rewrite not_elem_of_cons. case_decide; subst; [|rewrite IH]; intuition congruence.
Qed.

Lemma dict_get_elem d k v :
  NoDup (dict_keys d) → (k, v) ∈ d → dict_get d k = Some v.
Proof.
  unfold dict_keys. induction d as [|[k' v'] d IH]; simpl.
  - by intros _ ?%elem_of_nil.
  - intros [Hk ?]%NoDup_cons [[= -> ->] | Hin]%elem_of_cons.
    + by rewrite decide_True.
    + rewrite decide_False; [auto|]. intros ->. apply Hk.
      apply list_elem_of_fmap. by exists (k, v).
Qed.

Lemma dict_set_get_eq d k v : dict_get (dict_set d k v) k = Some v.
Proof.
  induction d as [|[k' v'] d IH]; simpl.
  - by rewrite decide_True.
  - case_decide; simpl; [by rewrite decide_True | by rewrite decide_False].
Qed.

Lemma dict_set_get_ne d k k' v :
  k ≠ k' → dict_get (dict_set d k v) k' = dict_get d k'.
Proof.
  intros Hne. induction d as [|[k0 v0] d IH]; simpl.
  - by rewrite decide_False.
  - case_decide; simpl; subst.
    + by rewrite !decide_False.
    + case_decide; [done | apply IH].
Qed.

(** Assigning to a key that is present keeps every key in place. *)
Lemma dict_set_keys_old d k v :
  k ∈ dict_keys d → dict_keys (dict_set d k v) = dict_keys d.
Proof.
  unfold dict_keys. induction d as [|[k0 v0] d IH]; simpl.
  - by intros ?%elem_of_nil.
  - intros Hin. case_decide; simpl; subst; [done|].
    f_equal. apply IH. by apply elem_of_cons in Hin as [|].
Qed.

(** Assigning to a new key puts it last. *)
Lemma dict_set_new d k v :
  k ∉ dict_keys d → dict_set d k v = d ++ [(k, v)].
Proof.
  unfold dict_keys. induction d as [|[k0 v0] d IH]; simpl; [done|].
  intros [? ?]%not_elem_of_cons. rewrite decide_False; [|done].
  f_equal. by apply IH.
Qed.
End DictFacts.

(** * The traversal *)

Section RunFacts.
Variable h : gmap nat (list string).
Variable obj : MakeCLI.

Abbreviation deps_get := (dependencies_get h obj).
Abbreviation lookup_deps := (dep_objs_of obj).

Abbreviation resolved := (resolved obj).

(** The list comprehension gives the tasks of all the names, or raises
    [KeyError] for a name that is not a key; it calls nothing. *)
Lemma dep_objs_of_cases deps :
  (∃ ts, lookup_deps deps = MkEff [] (Ret ts) ∧ resolved deps ts) ∨
  (∃ k, lookup_deps deps = raise (KeyError k) ∧
        k ∈ deps ∧ dict_get (tasks obj) k = None).
Proof.
  induction deps as [|t_n deps IH]; simpl.
  - left. exists []. split; [done | constructor].
  - destruct (dict_get (tasks obj) t_n) as [t|] eqn:Ht.
    + destruct IH as [(ts & -> & Hts) | (k & -> & Hk & Hnone)].
      * left. exists (t :: ts). split; [done | by constructor].
      * right. exists k. split; [done|]. split; [by right | done].
    + right. exists t_n. split; [done|]. split; [by left | done].
Qed.

Lemma resolved_length deps ts : resolved deps ts → length ts = length deps.
Proof. intros Hr. symmetry. by eapply Forall2_length. Qed.

Lemma truthy_cons deps : truthy deps = true → ∃ k ks, deps = Some (k :: ks).
Proof. destruct deps as [[|k ks]|]; simpl; [done | eauto | done]. Qed.

Section Loop.
Variable no_dependencies : bool.
Abbreviation while := (while_to_visit h obj no_dependencies).

Lemma while_0 s F : while 0 s F = timeout.
Proof. done. Qed.

Lemma while_nil n F : while (S n) [] F = mret tt.
Proof. done. Qed.

(** A task with a non-empty list whose names were fetched before. *)
Lemma while_skip n s t F :
  truthy (deps_get t) = true → no_dependencies = false → t ∈ F →
  while (S n) (s ++ [t]) F = while n s F.
Proof.
  intros Ht -> Hin. simpl. rewrite pop_snoc, Ht. simpl.
  by rewrite decide_True.
Qed.

(** A task with a non-empty list, first time, all names known. *)
Lemma while_expand n s t F ts :
  truthy (deps_get t) = true → no_dependencies = false → t ∉ F →
  lookup_deps (default [] (deps_get t)) = MkEff [] (Ret ts) →
  while (S n) (s ++ [t]) F =
  prepend (SetDependencies t ts) (while n (s ++ ts) ({[t]} ∪ F)).
Proof.
  intros Ht -> Hin Hts. simpl. rewrite pop_snoc, Ht. simpl.
  rewrite decide_False by done. by rewrite Hts.
Qed.

(** A task with a non-empty list, first time, one name unknown. *)
Lemma while_fail n s t F e :
  truthy (deps_get t) = true → no_dependencies = false → t ∉ F →
  lookup_deps (default [] (deps_get t)) = raise e →
  while (S n) (s ++ [t]) F = raise e.
Proof.
  intros Ht -> Hin Hts. simpl. rewrite pop_snoc, Ht. simpl.
  rewrite decide_False by done. by rewrite Hts.
Qed.

(** A task without names, or any task under [--no-dependencies]. *)
Lemma while_add n s t F :
  truthy (deps_get t) && negb no_dependencies = false →
  while (S n) (s ++ [t]) F = prepend (AddTask t) (while n s F).
Proof. intros Ht. simpl. by rewrite pop_snoc, Ht. Qed.

(** Induction along the iterations of the loop. *)
Lemma while_ind (P : nat → list nat → gset nat → Eff unit → Prop) :
  (∀ s F, P 0 s F timeout) →
  (∀ n F, P (S n) [] F (mret tt)) →
  (∀ n s t F,
     truthy (deps_get t) = true → no_dependencies = false → t ∈ F →
     P n s F (while n s F) → P (S n) (s ++ [t]) F (while n s F)) →
  (∀ n s t F ts,
     truthy (deps_get t) = true → no_dependencies = false → t ∉ F →
     lookup_deps (default [] (deps_get t)) = MkEff [] (Ret ts) →
     resolved (default [] (deps_get t)) ts →
     P n (s ++ ts) ({[t]} ∪ F) (while n (s ++ ts) ({[t]} ∪ F)) →
     P (S n) (s ++ [t]) F
       (prepend (SetDependencies t ts) (while n (s ++ ts) ({[t]} ∪ F)))) →
  (∀ n s t F k,
     truthy (deps_get t) = true → no_dependencies = false → t ∉ F →
     lookup_deps (default [] (deps_get t)) = raise (KeyError k) →
     k ∈ default [] (deps_get t) → dict_get (tasks obj) k = None →
     P (S n) (s ++ [t]) F (raise (KeyError k))) →
  (∀ n s t F,
     truthy (deps_get t) && negb no_dependencies = false →
     P n s F (while n s F) →
     P (S n) (s ++ [t]) F (prepend (AddTask t) (while n s F))) →
  ∀ n s F, P n s F (while n s F).
Proof.
  intros H0 Hnil Hskip Hexp Hfail Hadd n.
  induction n as [|n IH]; intros s F; [apply H0|].
  destruct (pop_cases s) as [-> | (s' & t & ->)]; [apply Hnil|].
  destruct (truthy (deps_get t) && negb no_dependencies) eqn:Hc.
  - apply andb_true_iff in Hc as [Ht Hnd].
    apply negb_true_iff in Hnd.
    destruct (decide (t ∈ F)) as [Hin|Hin].
    + rewrite while_skip by done. by apply Hskip.
    + destruct (dep_objs_of_cases (default [] (deps_get t)))
        as [(ts & Hts & Hr) | (k & Hk & Hin' & Hnone)].
      * rewrite (while_expand _ _ _ _ ts) by done. by apply Hexp.
      * rewrite (while_fail _ _ _ _ (KeyError k)) by done.
        by apply Hfail.
  - rewrite while_add by done. by apply Hadd.
Qed.
End Loop.
End RunFacts.

(** * Termination *)

Section Termination.
Variable h : gmap nat (list string).
Variable obj : MakeCLI.
Variable no_dependencies : bool.

Lemma names_to_fetch_le (L : list (nat * loc)) (t : nat) (F : gset nat) :
  names_to_fetch h (task_order obj) ({[t]} ∪ F) L
  ≤ names_to_fetch h (task_order obj) F L.
Proof.
  induction L as [|[t' r'] L IH]; simpl; [done|].
  repeat case_decide; try lia. exfalso. set_solver.
Qed.

Lemma names_to_fetch_lt (L : list (nat * loc)) (t : nat) (r : loc)
    (F : gset nat) :
  (t, r) ∈ L → t ∉ F →
  names_to_fetch h (task_order obj) ({[t]} ∪ F) L
    + S (length (default [] (list_at h (task_order obj) r))) ≤
  names_to_fetch h (task_order obj) F L.
Proof.
  intros Hin HF. induction L as [|[t' r'] L IH]; [by apply elem_of_nil in Hin|].
  simpl. apply elem_of_cons in Hin as [[= <- <-] | Hin].
  - rewrite decide_True by set_solver. rewrite decide_False by done.
    pose proof (names_to_fetch_le L t F). lia.
  - specialize (IH Hin). repeat case_decide; try lia. exfalso. set_solver.
Qed.

(** Fetching the names of [t] pays for the tasks it pushes. *)
Lemma cost_fetch t deps F :
  dependencies_get h obj t = Some deps → t ∉ F →
  cost h obj ({[t]} ∪ F) + S (length deps) ≤ cost h obj F.
Proof.
  unfold dependencies_get. intros Hd HF.
  destruct (dependencies obj !! t) as [r|] eqn:Hr; [simpl in Hd | done].
  pose proof (names_to_fetch_lt (map_to_list (dependencies obj)) t r F) as Hlt.
  rewrite Hd in Hlt. simpl in Hlt. unfold cost.
  apply Hlt; [by apply elem_of_map_to_list | done].
Qed.

(** The loop ends within its budget: with more steps than tasks on the
    stack plus names still to fetch, it is not cut off. *)
Lemma while_terminates n s F :
  length s + cost h obj F < n →
  result (while_to_visit h obj no_dependencies n s F) ≠ Timeout.
Proof.
  revert n s F.
  apply (while_ind h obj no_dependencies
           (λ n s F m, length s + cost h obj F < n → result m ≠ Timeout));
    simpl; try done.
  - intros; lia.
  - intros n s t F _ _ _ IH. rewrite length_app. simpl.
    intros ?. apply IH. lia.
  - intros n s t F ts Ht _ HF _ Hr IH. rewrite length_app. simpl.
    intros ?. apply IH. rewrite length_app.
    apply truthy_cons in Ht as (k & ks & Hd).
    pose proof (cost_fetch t _ F Hd HF).
    rewrite Hd in Hr. simpl in Hr. apply resolved_length in Hr. lia.
  - intros n s t F _ IH. rewrite length_app. simpl.
    intros ?. apply IH. lia.
Qed.

(** Steps beyond those the loop takes change nothing. *)
Lemma while_fuel_mono n s F :
  result (while_to_visit h obj no_dependencies n s F) ≠ Timeout →
  ∀ n', n ≤ n' →
  while_to_visit h obj no_dependencies n' s F =
  while_to_visit h obj no_dependencies n s F.
Proof.
  revert n s F.
  apply (while_ind h obj no_dependencies
           (λ n s F m, result m ≠ Timeout → ∀ n', n ≤ n' →
                       while_to_visit h obj no_dependencies n' s F = m));
    simpl; try done.
  - intros n F _ [|n'] ?; [lia | done].
  - intros n s t F ? ? ? IH Hres [|n'] ?; [lia|].
    rewrite while_skip by done. apply IH; [done | lia].
  - intros n s t F ts Ht ? ? Hts Hr IH Hres [|n'] ?; [lia|].
    rewrite (while_expand _ _ _ _ _ _ _ ts) by done.
    rewrite IH; [done | done | lia].
  - intros n s t F k Ht ? ? Hk _ _ _ [|n'] ?; [lia|].
    by rewrite (while_fail _ _ _ _ _ _ _ (KeyError k)).
  - intros n s t F Hc IH Hres [|n'] ?; [lia|].
    rewrite while_add by done. rewrite IH; [done | done | lia].
Qed.
End Termination.

(** * The outer loop and [run] *)

Section ForItems.
Variable h : gmap nat (list string).
Variable obj : MakeCLI.
Variable no_dependencies : bool.

Abbreviation for_loop := (for_items h obj no_dependencies).
Abbreviation traverse := (while_to_visit h obj no_dependencies).

Lemma for_items_cons fuel names task_name t items :
  for_loop fuel names ((task_name, t) :: items) =
  ((if bool_decide (task_name ∈ names) then traverse fuel [t] ∅ else mret tt);;
   for_loop fuel names items).
Proof. done. Qed.

Lemma traverse_terminates fuel t :
  fuel_bound h obj ≤ fuel → result (traverse fuel [t] ∅) ≠ Timeout.
Proof. intros ?. apply while_terminates. unfold fuel_bound in *. simpl. lia. Qed.

Lemma for_items_terminates fuel names items :
  fuel_bound h obj ≤ fuel → result (for_loop fuel names items) ≠ Timeout.
Proof.
  intros Hfuel. induction items as [|[task_name t] items IH]; [done|].
  rewrite for_items_cons. case_bool_decide.
  - pose proof (traverse_terminates fuel t Hfuel) as Ht.
    unfold mbind, Eff_bind.
    destruct (result (traverse fuel [t] ∅)); [done | done | done].
  - by rewrite bind_mret_l.
Qed.

Lemma for_items_fuel_mono fuel names items :
  fuel_bound h obj ≤ fuel →
  for_loop fuel names items = for_loop (fuel_bound h obj) names items.
Proof.
  intros Hfuel. induction items as [|[task_name t] items IH]; [done|].
  rewrite !for_items_cons, IH.
  case_bool_decide; [|done].
  rewrite (while_fuel_mono h obj no_dependencies (fuel_bound h obj)); [done| |done].
  by apply traverse_terminates.
Qed.

(** Only the keys of the dict are tested for membership in [tasks]. *)
Lemma for_items_ext fuel names1 names2 items :
  (∀ n, n ∈ dict_keys items → n ∈ names1 ↔ n ∈ names2) →
  for_loop fuel names1 items = for_loop fuel names2 items.
Proof.
  unfold dict_keys.
  induction items as [|[task_name t] items IH]; intros Hext; [done|].
  rewrite !for_items_cons, IH.
  - assert (bool_decide (task_name ∈ names1) = bool_decide (task_name ∈ names2))
      as ->; [|done].
    apply bool_decide_ext, Hext. simpl. by left.
  - intros n Hn. apply Hext. simpl. by right.
Qed.

(** The loops send tasks and edges; [flow.run()] is not among them. *)
Lemma while_calls_submissions n s F :
  Forall (λ c, is_submission c = true) (calls (traverse n s F)).
Proof.
  revert n s F.
  apply (while_ind h obj no_dependencies
           (λ n s F m, Forall (λ c, is_submission c = true) (calls m)));
    simpl; intros; try done; by constructor.
Qed.

Lemma for_items_calls_submissions fuel names items :
  Forall (λ c, is_submission c = true) (calls (for_loop fuel names items)).
Proof.
  induction items as [|[task_name t] items IH]; [by constructor|].
  rewrite for_items_cons.
  set (m := if bool_decide (task_name ∈ names) then traverse fuel [t] ∅ else mret tt).
  assert (Forall (λ c, is_submission c = true) (calls m)) as Hm.
  { unfold m. case_bool_decide; [apply while_calls_submissions | by constructor]. }
  unfold mbind, Eff_bind. destruct (result m); simpl; [|done|done].
  by apply Forall_app.
Qed.

(** When no task is expanded (the flag is set, or no task has names),
    each traversal adds its one task. *)
Lemma traverse_add fuel t :
  truthy (dependencies_get h obj t) && negb no_dependencies = false →
  traverse (S (S fuel)) [t] ∅ = MkEff [AddTask t] (Ret tt).
Proof. intros Hc. by rewrite (while_add _ _ _ _ [] t ∅ Hc). Qed.

Lemma for_items_add fuel names items :
  (∀ t, truthy (dependencies_get h obj t) && negb no_dependencies = false) →
  for_loop (S (S fuel)) names items =
  MkEff (AddTask <$> (filter (λ p : string * nat, p.1 ∈ names) items).*2)
        (Ret tt).
Proof.
  intros Hc. induction items as [|[task_name t] items IH]; [done|].
  rewrite for_items_cons, IH, filter_cons. cbn [fst].
  case_bool_decide.
  - rewrite decide_True by done. by rewrite traverse_add.
  - rewrite decide_False by done. by rewrite bind_mret_l.
Qed.
End ForItems.

Section RunGeneral.
Variable h : gmap nat (list string).
Variable obj : MakeCLI.

Lemma run_with_fuel_mono fuel names nd :
  fuel_bound h obj ≤ fuel → run_with fuel h obj names nd = run h obj names nd.
Proof.
  intros Hfuel. unfold run, run_with. by rewrite for_items_fuel_mono.
Qed.

Lemma run_terminates names nd : result (run h obj names nd) ≠ Timeout.
Proof.
  unfold run, run_with.
  pose proof (for_items_terminates h obj nd (fuel_bound h obj)
                (effective obj names) (tasks obj) (le_n _)) as Ht.
  unfold mbind, Eff_bind.
  destruct (result (for_items _ _ _ _ _ _)); [done | done | done].
Qed.

Lemma run_add names nd :
  (∀ t, truthy (dependencies_get h obj t) && negb nd = false) →
  run h obj names nd =
  MkEff ((AddTask <$> requested_tasks obj (effective obj names)) ++ [FlowRun])
        (Ret tt).
Proof.
  intros Hc. unfold run, run_with, fuel_bound.
  by rewrite for_items_add.
Qed.

Lemma elem_of_requested_tasks names t :
  t ∈ requested_tasks obj names ↔ ∃ n, n ∈ names ∧ (n, t) ∈ tasks obj.
Proof.
  unfold requested_tasks. rewrite list_elem_of_fmap. split.
  - intros ([n t'] & -> & [Hn Hin]%list_elem_of_filter). by exists n.
  - intros (n & Hn & Hin). exists (n, t). split; [done|].
    by apply list_elem_of_filter.
Qed.
End RunGeneral.

(** * Registration *)

Section DictSet.
Context {V : Type}.
Implicit Types (d : list (string * V)) (k : string) (v : V).

Lemma dict_set_elem d k v k' v' :
  NoDup (dict_keys d) → (k', v') ∈ dict_set d k v →
  (k', v') = (k, v) ∨ (k' ≠ k ∧ (k', v') ∈ d).
Proof.
  unfold dict_keys. induction d as [|[k0 v0] d IH]; simpl.
  - intros _ ?%list_elem_of_singleton. by left.
  - intros [Hk0 Hd]%NoDup_cons. case_decide; subst.
    + intros [? | Hin]%elem_of_cons; [by left | right].
      split; [|by right]. intros ->. apply Hk0.
      apply list_elem_of_fmap. by exists (k, v').
    + intros [[= -> ->] | Hin]%elem_of_cons.
      * right. split; [done | by left].
      * destruct (IH Hd Hin) as [? | [? ?]]; [by left | right].
        split; [done | by right].
Qed.

Lemma dict_set_keys d k v :
  dict_keys (dict_set d k v) =
  if decide (k ∈ dict_keys d) then dict_keys d else dict_keys d ++ [k].
Proof.
  case_decide as Hk.
  - by apply dict_set_keys_old.
  - rewrite dict_set_new by done. unfold dict_keys. by rewrite fmap_app.
Qed.

Lemma dict_set_keys_NoDup d k v :
  NoDup (dict_keys d) → NoDup (dict_keys (dict_set d k v)).
Proof.
  intros Hd. rewrite dict_set_keys. case_decide; [done|].
  apply NoDup_app. split; [done|]. split; [|apply NoDup_singleton].
  intros x Hx ->%list_elem_of_singleton. done.
Qed.

Lemma dict_set_values_NoDup d k v :
  NoDup (dict_keys d) → NoDup (dict_values d) → v ∉ dict_values d →
  NoDup (dict_values (dict_set d k v)).
Proof.
  intros Hk Hv Hfresh. apply NoDup_alt. intros i j x Hi Hj.
  unfold dict_values in *.
  apply list_lookup_fmap_Some in Hi as ([ki vi] & -> & Hi).
  apply list_lookup_fmap_Some in Hj as ([kj vj] & Hx & Hj).
  simpl in Hx. subst vj.
  assert (ki = kj) as ->.
  { assert (Hi' : (ki, vi) ∈ dict_set d k v) by (by eapply list_elem_of_lookup_2).
    assert (Hj' : (kj, vi) ∈ dict_set d k v) by (by eapply list_elem_of_lookup_2).
    apply dict_set_elem in Hi' as [[= -> ->] | [Hne Hi']]; [| |done];
      apply dict_set_elem in Hj' as [[= ->] | [Hne' Hj']]; try done.
    - exfalso. apply Hfresh. apply list_elem_of_fmap. by exists (kj, v).
    - subst vi. exfalso. apply Hfresh. apply list_elem_of_fmap. by exists (ki, v).
    - apply list_elem_of_lookup in Hi' as [i' Hi'].
      apply list_elem_of_lookup in Hj' as [j' Hj'].
      assert (i' = j') as ->; [|congruence].
      eapply NoDup_lookup; [exact Hv | |]; rewrite list_lookup_fmap.
      + by rewrite Hi'.
      + by rewrite Hj'. }
  eapply NoDup_lookup; [apply (dict_set_keys_NoDup d k v Hk)| |];
    unfold dict_keys; rewrite list_lookup_fmap.
  - by rewrite Hi.
  - by rewrite Hj.
Qed.
End DictSet.

(** The cases of [task]: what [depends] is, and whether implied ordering
    has a name to append. *)
Ltac task_cases depends self :=
  unfold task, implied;
  destruct depends as [|?r| |?xs]; simpl;
  destruct (implied_order self); simpl;
  try destruct (last (task_order self)); simpl.

Section TaskFacts.
Implicit Types (h : gmap nat (list string)) (self : MakeCLI).

Lemma init_ok h b : registry_ok h (init b).
Proof.
  split; simpl.
  - intros t r. by rewrite lookup_empty.
  - intros n t ?%elem_of_nil. done.
  - apply NoDup_nil_2.
  - apply NoDup_nil_2.
Qed.

Lemma init_plain b : plain_lists (init b).
Proof. intros t l. simpl. by rewrite lookup_empty. Qed.

Lemma task_fields h self fn depends t h' self' :
  task h self fn depends = (t, h', self') →
  t = fresh (dom (dependencies self)) ∧
  tasks self' = dict_set (tasks self) fn t ∧
  task_order self'
    = task_order self
      ++ match depends with OrderObj => implied self | _ => [] end ++ [fn] ∧
  implied_order self' = implied_order self ∧
  dom (dependencies self') = {[t]} ∪ dom (dependencies self).
Proof.
  task_cases depends self; intros [= <- <- <-]; simpl;
    rewrite ?dom_insert_L, <-?app_assoc; done.
Qed.

Lemma task_order_plain h self fn depends t h' self' :
  depends ≠ OrderObj →
  task h self fn depends = (t, h', self') →
  task_order self' = task_order self ++ [fn].
Proof.
  intros Hne (_ & _ & -> & _)%task_fields. by destruct depends.
Qed.

Lemma task_fresh h self fn depends t h' self' :
  task h self fn depends = (t, h', self') → t ∉ dom (dependencies self).
Proof. intros (-> & _)%task_fields. apply is_fresh. Qed.

(** The list of the new task: what the list [depends] held, then the
    implied name, then the name of the task itself when the list is
    [self.task_order]. *)
Lemma task_new_deps h self fn depends t h' self' xs :
  task h self fn depends = (t, h', self') →
  explicit h self depends = Some xs →
  dependencies_get h' self' t
  = Some (xs ++ implied self ++ own_name fn depends).
Proof.
  unfold explicit, dependencies_get.
  task_cases depends self; intros [= <- <- <-]; simpl;
    rewrite lookup_insert_eq; simpl;
    rewrite ?lookup_alter_eq, ?lookup_insert_eq; simpl;
    intros Hxs; rewrite ?Hxs; simpl; simplify_eq;
    rewrite ?app_nil_r, <-?app_assoc; done.
Qed.

Lemma task_new_deps_plain h self fn t h' self' :
  task h self fn NotAList = (t, h', self') →
  dependencies_get h' self' t = Some (implied self).
Proof.
  intros Ht. rewrite (task_new_deps _ _ _ _ _ _ _ [] Ht eq_refl).
  simpl. by rewrite app_nil_r.
Qed.

(** A bare registration leaves alone the lists of the other tasks,
    when none of them is [self.task_order]. *)
Lemma task_old_deps h self fn t h' self' t0 :
  registry_ok h self → plain_lists self →
  task h self fn NotAList = (t, h', self') →
  t0 ∈ dom (dependencies self) →
  dependencies_get h' self' t0 = dependencies_get h self t0.
Proof.
  intros Hok Hplain Ht Ht0.
  pose proof (task_fresh _ _ _ _ _ _ _ Ht) as Hfresh.
  apply elem_of_dom in Ht0 as [l Hl].
  assert (t0 ∈ dom (dependencies self)) as Hdom by (apply elem_of_dom; eauto).
  destruct l as [r|]; [|by destruct (Hplain t0 OrderList Hl)].
  assert (fresh (dom h) ≠ r) as Hne.
  { intros <-. apply (is_fresh (dom h)). by eapply ok_lists. }
  revert Ht. unfold dependencies_get.
  task_cases NotAList self; intros [= <- <- <-]; simpl;
    rewrite lookup_insert_ne by (intros <-; done); rewrite Hl; simpl;
    rewrite ?lookup_alter_ne, ?lookup_insert_ne by done; done.
Qed.

Lemma task_heap_dom h self fn depends t h' self' :
  task h self fn depends = (t, h', self') → dom h ⊆ dom h'.
Proof.
  task_cases depends self; intros [= <- <- <-];
    rewrite ?dom_alter_L, ?dom_insert_L; set_solver.
Qed.

Lemma task_new_loc h self fn depends t h' self' :
  task h self fn depends = (t, h', self') →
  ∃ l, dependencies self' = <[t := l]> (dependencies self) ∧
       match l, depends with
       | Ref r, ListObj r' => r = r'
       | Ref r, (NotAList | TupleObj _) => r = fresh (dom h)
       | OrderList, OrderObj => True
       | _, _ => False
       end.
Proof.
  task_cases depends self; intros [= <- <- <-]; simpl; by eexists.
Qed.

Lemma task_ok h self fn depends t h' self' :
  registry_ok h self →
  match depends with ListObj r => r ∈ dom h | _ => True end →
  task h self fn depends = (t, h', self') →
  registry_ok h' self'.
Proof.
  intros Hok Harg Ht.
  pose proof (task_fresh _ _ _ _ _ _ _ Ht) as Hfresh.
  pose proof (task_heap_dom _ _ _ _ _ _ _ Ht) as Hdom.
  pose proof (task_fields _ _ _ _ _ _ _ Ht) as (_ & Htasks & _ & _ & Hdeps).
  destruct (task_new_loc _ _ _ _ _ _ _ Ht) as (l & Hl & Hloc).
  split.
  - intros t0 r0. rewrite Hl.
    intros [[<- ->] | [_ Hr0]]%lookup_insert_Some;
      [|apply Hdom; by eapply ok_lists].
    destruct depends as [|r| |xs]; try done; subst r0.
    + assert (fresh (dom h) ∈ dom (<[fresh (dom h) := []]> h))
        by (rewrite dom_insert_L; set_solver).
      revert Ht. task_cases NotAList self; intros [= <- <- <-];
        rewrite ?dom_alter_L; done.
    + by apply Hdom.
    + assert (fresh (dom h) ∈ dom (<[fresh (dom h) := []]> h))
        by (rewrite dom_insert_L; set_solver).
      revert Ht. task_cases (TupleObj xs) self; intros [= <- <- <-];
        rewrite ?dom_alter_L; done.
  - intros n t0. rewrite Htasks, Hdeps.
    intros [[= -> ->] | [_ Hin]]%dict_set_elem; [set_solver | | apply Hok].
    apply elem_of_union_r. by eapply ok_tasks.
  - rewrite Htasks. apply dict_set_keys_NoDup, Hok.
  - rewrite Htasks. apply dict_set_values_NoDup; [apply Hok..|].
    unfold dict_values. intros ([n t0] & -> & Hin)%list_elem_of_fmap.
    apply Hfresh. by eapply ok_tasks.
Qed.

Lemma task_plain_lists h self fn depends t h' self' :
  plain_lists self → depends ≠ OrderObj →
  task h self fn depends = (t, h', self') →
  plain_lists self'.
Proof.
  intros Hplain Hne Ht.
  destruct (task_new_loc _ _ _ _ _ _ _ Ht) as (l & Hl & Hloc).
  intros t0 l0. rewrite Hl.
  intros [[<- <-] | [_ Hl0]]%lookup_insert_Some; [|by eapply Hplain].
  by destruct l, depends.
Qed.

(** Without implied ordering, bare registrations give no task a name
    to fetch. *)
Lemma task_plain_no_names h self fn t h' self' :
  implied_order self = false → plain_lists self →
  (∀ t0, truthy (dependencies_get h self t0) = false) →
  task h self fn NotAList = (t, h', self') →
  ∀ t0, truthy (dependencies_get h' self' t0) = false.
Proof.
  intros Himp Hplain Hnone. unfold task. rewrite Himp. simpl.
  intros [= <- <- <-] t0. unfold dependencies_get. simpl.
  destruct (decide (fresh (dom (dependencies self)) = t0)) as [<-|Hne].
  - rewrite lookup_insert_eq. simpl. by rewrite lookup_insert_eq.
  - rewrite lookup_insert_ne by done.
    destruct (dependencies self !! t0) as [[r|]|] eqn:Hr; [simpl | | done].
    + destruct (decide (fresh (dom h) = r)) as [<-|Hne'].
      * by rewrite lookup_insert_eq.
      * rewrite lookup_insert_ne by done.
        specialize (Hnone t0). unfold dependencies_get in Hnone.
        by rewrite Hr in Hnone.
    + by destruct (Hplain t0 OrderList Hr).
Qed.
End TaskFacts.

(** * A traversal that returns has fetched everything it leads to *)

Section Closure.
Variable h : gmap nat (list string).
Variable obj : MakeCLI.

Abbreviation falsy t := (truthy (dependencies_get h obj t) = false).
Abbreviation fetched_closed := (fetched_closed h obj).

Lemma falsy_no_names t k : falsy t → k ∉ default [] (dependencies_get h obj t).
Proof.
  destruct (dependencies_get h obj t) as [[|]|]; simpl; try done;
    intros _; apply not_elem_of_nil.
Qed.

Lemma resolved_elem deps ts k :
  resolved obj deps ts → k ∈ deps → ∃ t, dict_get (tasks obj) k = Some t ∧ t ∈ ts.
Proof.
  induction 1 as [|k0 t0 deps ts Hk0 _ IH]; [by intros ?%elem_of_nil|].
  intros [-> | Hin]%elem_of_cons.
  - exists t0. split; [done | by left].
  - destruct (IH Hin) as (t & ? & ?). exists t. split; [done | by right].
Qed.

Lemma while_ret_closed n s F :
  result (while_to_visit h obj false n s F) = Ret tt →
  fetched_closed s F →
  ∃ F', F ⊆ F' ∧ fetched_closed [] F' ∧ ∀ t, t ∈ s → t ∈ F' ∨ falsy t.
Proof.
  revert n s F.
  apply (while_ind h obj false
           (λ n s F m, result m = Ret tt → fetched_closed s F →
              ∃ F', F ⊆ F' ∧ fetched_closed [] F' ∧
                    ∀ t, t ∈ s → t ∈ F' ∨ falsy t)); simpl; try done.
  - intros _ F _ Hinv. exists F. split; [done|]. split; [done|].
    by intros t ?%elem_of_nil.
  - intros n s t F Ht _ HF IH Hret Hinv.
    destruct IH as (F' & Hsub & Hcl & Hs); [done | |].
    + intros x Hx. destruct (Hinv x Hx) as [Hun Hup]. split; [done|].
      intros t' Hxt'. destruct (Hup t' Hxt') as [? | [? | Hin]]; [auto..|].
      apply elem_of_app in Hin as [? | ->%list_elem_of_singleton]; auto.
    + exists F'. split; [done|]. split; [done|].
      intros x [? | ->%list_elem_of_singleton]%elem_of_app; [auto|].
      left. by apply Hsub.
  - intros n s t F ts Ht _ HF _ Hr IH Hret Hinv.
    destruct IH as (F' & Hsub & Hcl & Hs); [done | |].
    + intros x [->%elem_of_singleton | Hx]%elem_of_union.
      * split.
        -- intros k [Hk Hnone].
           destruct (resolved_elem _ _ _ Hr Hk) as (t' & ? & _). congruence.
        -- intros t' (k & Hk & Hsome).
           destruct (resolved_elem _ _ _ Hr Hk) as (t'' & ? & ?).
           right. right. apply elem_of_app. right. congruence.
      * destruct (Hinv x Hx) as [Hun Hup]. split; [done|].
        intros t' Hxt'. destruct (Hup t' Hxt') as [? | [? | Hin]].
        -- left. set_solver.
        -- auto.
        -- apply elem_of_app in Hin as [? | ->%list_elem_of_singleton].
           ++ right. right. apply elem_of_app. by left.
           ++ left. set_solver.
    + exists F'. split; [set_solver|]. split; [done|].
      intros x [? | ->%list_elem_of_singleton]%elem_of_app.
      * apply Hs. apply elem_of_app. by left.
      * left. apply Hsub. set_solver.
  - intros n s t F Hc IH Hret Hinv.
    rewrite andb_true_r in Hc.
    destruct IH as (F' & Hsub & Hcl & Hs); [done | |].
    + intros x Hx. destruct (Hinv x Hx) as [Hun Hup]. split; [done|].
      intros t' Hxt'. destruct (Hup t' Hxt') as [? | [? | Hin]]; [auto..|].
      apply elem_of_app in Hin as [? | ->%list_elem_of_singleton]; auto.
    + exists F'. split; [done|]. split; [done|].
      intros x [? | ->%list_elem_of_singleton]%elem_of_app; auto.
Qed.

(** A traversal from [t0] that returns met no unresolved name. *)
Lemma traverse_ret_resolved n t0 t k :
  result (while_to_visit h obj false n [t0] ∅) = Ret tt →
  rtc (upstream_of h obj) t0 t → ¬ unresolved h obj t k.
Proof.
  intros Hret Hreach.
  destruct (while_ret_closed n [t0] ∅ Hret) as (F & _ & Hcl & Hs).
  { by intros x ?%not_elem_of_empty. }
  assert (t0 ∈ F ∨ falsy t0) as H0 by (apply Hs; by left).
  clear Hs Hret. induction Hreach as [t | t t1 t2 Hstep _ IH].
  - destruct H0 as [HF | Hf].
    + by apply Hcl.
    + intros [Hk _]. by eapply falsy_no_names.
  - apply IH. destruct H0 as [HF | Hf].
    + destruct (Hcl t HF) as [_ Hup].
      destruct (Hup t1 Hstep) as [? | [? | ?%elem_of_nil]]; [auto | auto | done].
    + destruct Hstep as (k' & Hk' & _). exfalso. by eapply falsy_no_names.
Qed.

(** An exception of the loop names a key that [obj.tasks] lacks. *)
Lemma while_raise_unregistered nd n s F e :
  result (while_to_visit h obj nd n s F) = Raise e →
  ∃ k, e = KeyError k ∧ dict_get (tasks obj) k = None.
Proof.
  revert n s F.
  apply (while_ind h obj nd
           (λ n s F m, result m = Raise e →
              ∃ k, e = KeyError k ∧ dict_get (tasks obj) k = None));
    simpl; try done.
  intros n s t F k _ _ _ _ _ Hnone [= <-]. by exists k.
Qed.

Section Outer.
Variable fuel : nat.
Variable names : list string.
Hypothesis Hfuel : fuel_bound h obj ≤ fuel.

Lemma for_items_raise_unregistered nd items e :
  result (for_items h obj nd fuel names items) = Raise e →
  ∃ k, e = KeyError k ∧ dict_get (tasks obj) k = None.
Proof.
  induction items as [|[task_name t] items IH]; [done|].
  rewrite for_items_cons. case_bool_decide.
  - unfold mbind, Eff_bind.
    destruct (result (while_to_visit h obj nd fuel [t] ∅)) eqn:Hres;
      simpl; [done | | done].
    intros [= <-]. by eapply while_raise_unregistered.
  - by rewrite bind_mret_l.
Qed.

Lemma for_items_ret_resolved items n t0 t k :
  result (for_items h obj false fuel names items) = Ret tt →
  (n, t0) ∈ items → n ∈ names →
  rtc (upstream_of h obj) t0 t → ¬ unresolved h obj t k.
Proof.
  intros Hret Hin Hn Hreach.
  induction items as [|[task_name t'] items IH]; [by apply elem_of_nil in Hin|].
  rewrite for_items_cons in Hret.
  apply elem_of_cons in Hin as [[= <- <-] | Hin].
  - rewrite bool_decide_eq_true_2 in Hret by done.
    unfold mbind, Eff_bind in Hret.
    destruct (result (while_to_visit h obj false fuel [t0] ∅)) as [[]| |] eqn:Hres;
      [|done|done].
    by eapply traverse_ret_resolved.
  - apply IH; [|done]. unfold mbind, Eff_bind in Hret.
    destruct (result (if bool_decide (task_name ∈ names)
                      then while_to_visit h obj false fuel [t'] ∅
                      else mret tt)); [|done|done].
    simpl in Hret. by destruct (result (for_items _ _ _ _ _ items)) as [[]| |].
Qed.
End Outer.

(** With an unresolved name within reach, [run] raises [KeyError] for
    a name that is not registered, and [flow.run()] is not called. *)
Lemma run_unresolved_raises names :
  reachable_unresolved h obj names →
  ∃ cs k, run h obj names false = MkEff cs (Raise (KeyError k)) ∧
          dict_get (tasks obj) k = None ∧
          Forall (λ c, is_submission c = true) cs.
Proof.
  intros (n & t0 & t & k & Hn & Hin & Hreach & Hun).
  unfold run, run_with.
  pose proof (for_items_terminates h obj false (fuel_bound h obj)
                (effective obj names) (tasks obj) (le_n _)) as Hterm.
  pose proof (for_items_calls_submissions h obj false (fuel_bound h obj)
                (effective obj names) (tasks obj)) as Hsub.
  destruct (result (for_items h obj false (fuel_bound h obj)
                      (effective obj names) (tasks obj))) as [[]|e|] eqn:Hres;
    [|clear Hterm|done].
  - exfalso. by eapply (for_items_ret_resolved (fuel_bound h obj)).
  - destruct (for_items_raise_unregistered _ _ _ _ _ Hres) as (k' & -> & Hnone).
    eexists _, k'. split; [by apply bind_Raise|]. by split.
Qed.
End Closure.

(** * What a list of calls holds *)

Section Calls.
Lemma standalone_add (ts : list nat) :
  standalone ((AddTask <$> ts) ++ [FlowRun]) = ts.
Proof.
  unfold standalone. induction ts as [|t ts IH]; [done|].
  simpl. f_equal. apply IH.
Qed.

Lemma edges_add (ts : list nat) : edges ((AddTask <$> ts) ++ [FlowRun]) = [].
Proof. unfold edges. induction ts as [|t ts IH]; [done | apply IH]. Qed.

Lemma FlowRun_not_submission cs :
  Forall (λ c, is_submission c = true) cs → FlowRun ∉ cs.
Proof. intros Hall Hin. by apply (proj1 (Forall_forall _ _) Hall) in Hin. Qed.

Lemma requested_tasks_single (d : list (string * nat)) fn t :
  NoDup (dict_keys d) → dict_get d fn = Some t →
  (filter (λ p : string * nat, p.1 ∈ [fn]) d).*2 = [t].
Proof.
  unfold dict_keys. induction d as [|[k v] d IH]; simpl; [done|].
  intros [Hk Hd]%NoDup_cons. rewrite filter_cons. cbn [fst].
  case_decide as Hkfn; subst.
  - intros [= ->]. rewrite decide_True by (by left). simpl. f_equal.
    clear IH Hd. induction d as [|[k' v'] d IH]; [done|].
    rewrite filter_cons. cbn [fst]. rewrite decide_False.
    + apply IH. intros Hin. apply Hk. simpl. by right.
    + intros ->%list_elem_of_singleton. apply Hk. simpl. by left.
  - rewrite decide_False by (by intros ->%list_elem_of_singleton). auto.
Qed.
End Calls.

(** * Each task is expanded once per traversal *)

Lemma while_expanded_once h obj nd n s F :
  NoDup (expanded (calls (while_to_visit h obj nd n s F))) ∧
  ∀ t, t ∈ expanded (calls (while_to_visit h obj nd n s F)) → t ∉ F.
Proof.
  revert n s F.
  apply (while_ind h obj nd
           (λ n s F m, NoDup (expanded (calls m)) ∧
                       ∀ t, t ∈ expanded (calls m) → t ∉ F)); simpl.
  - intros ? ?. split; [apply NoDup_nil_2 | by intros t ?%elem_of_nil].
  - intros ? ?. split; [apply NoDup_nil_2 | by intros t ?%elem_of_nil].
  - done.
  - intros n s t F ts _ _ HF _ _ [IH1 IH2]. unfold expanded in *. simpl. split.
    + apply NoDup_cons. split; [|done]. intros Hin%IH2. set_solver.
    + intros x [-> | Hin%IH2]%elem_of_cons; [done | set_solver].
  - intros. split; [apply NoDup_nil_2 | by intros x ?%elem_of_nil].
  - done.
Qed.

Lemma effective_nonempty obj names : names ≠ [] → effective obj names = names.
Proof.
  intros Hne. unfold effective. case_decide as Hlen; [|done].
  by apply length_zero_iff_nil in Hlen.
Qed.

Lemma effective_nil obj : effective obj [] = dict_keys (tasks obj).
Proof. done. Qed.

Lemma for_items_none h obj nd fuel names items :
  (∀ k, k ∈ dict_keys items → k ∉ names) →
  for_items h obj nd fuel names items = mret tt.
Proof.
  unfold dict_keys. induction items as [|[k t] items IH]; [done|].
  intros Hnone. rewrite for_items_cons, IH.
  - rewrite bool_decide_eq_false_2; [done|]. apply Hnone. simpl. by left.
  - intros k' Hk'. apply Hnone. simpl. by right.
Qed.

(** Any traversal that ends is the traversal [run] makes. *)
Lemma traverse_any_fuel h obj nd n t :
  result (while_to_visit h obj nd n [t] ∅) ≠ Timeout →
  while_to_visit h obj nd (fuel_bound h obj) [t] ∅ =
  while_to_visit h obj nd n [t] ∅.
Proof.
  intros Hn. destruct (decide (n ≤ fuel_bound h obj)) as [Hle|Hgt].
  - by apply while_fuel_mono.
  - symmetry. apply while_fuel_mono; [|lia].
    by apply traverse_terminates.
Qed.

(** * Sequences of bare registrations *)

Section RegisterAll.
Implicit Types (h : gmap nat (list string)) (self : MakeCLI).

Lemma register_all_cons h self fn fns :
  register_all h self (fn :: fns) =
  let '(t, h1, s1) := task h self fn NotAList in
  let '(ts, h2, s2) := register_all h1 s1 fns in
  (t :: ts, h2, s2).
Proof. done. Qed.

Lemma register_all_no_names h self fns ts h' self' :
  implied_order self = false → plain_lists self →
  (∀ t, truthy (dependencies_get h self t) = false) →
  register_all h self fns = (ts, h', self') →
  ∀ t, truthy (dependencies_get h' self' t) = false.
Proof.
  revert h self ts.
  induction fns as [|fn fns IH]; intros h self ts Himp Hplain Hnone.
  - by intros [= <- <- <-].
  - rewrite register_all_cons.
    destruct (task h self fn NotAList) as [[t h1] s1] eqn:Ht.
    destruct (register_all h1 s1 fns) as [[ts' h2] s2] eqn:Hrest.
    intros [= <- <- <-]. eapply IH; [| | |exact Hrest].
    + pose proof (task_fields _ _ _ _ _ _ _ Ht) as (_ & _ & _ & -> & _). done.
    + by eapply (task_plain_lists h self fn NotAList).
    + by eapply task_plain_no_names.
Qed.

(** New names are put last, in the order of registration. *)
Lemma register_all_tasks h self fns ts h' self' :
  NoDup fns → (∀ n, n ∈ fns → n ∉ dict_keys (tasks self)) →
  register_all h self fns = (ts, h', self') →
  tasks self' = tasks self ++ zip fns ts ∧ length ts = length fns.
Proof.
  revert h self ts. induction fns as [|fn fns IH]; intros h self ts Hnd Hnew.
  - intros [= <- <- <-]. by rewrite app_nil_r.
  - rewrite register_all_cons.
    destruct (task h self fn NotAList) as [[t h1] s1] eqn:Ht.
    destruct (register_all h1 s1 fns) as [[ts' h2] s2] eqn:Hrest.
    intros [= <- <- <-]. apply NoDup_cons in Hnd as [Hfn Hnd].
    apply task_fields in Ht as (_ & Htasks & _).
    rewrite dict_set_new in Htasks by (apply Hnew; by left).
    destruct (IH h1 s1 ts' Hnd) as [-> Hlen]; [|done|].
    + intros n Hn. rewrite Htasks. unfold dict_keys. rewrite fmap_app.
      intros [Hin | ->%list_elem_of_singleton]%elem_of_app; [|done].
      apply (Hnew n); [by right | done].
    + rewrite Htasks, <-app_assoc. simpl. by rewrite Hlen.
Qed.

Lemma length_filter_zip (names fns : list string) (ts : list nat) :
  length ts = length fns →
  length (filter (λ p : string * nat, p.1 ∈ names) (zip fns ts)).*2
  = length (filter (λ n, n ∈ names) fns).
Proof.
  revert ts. induction fns as [|fn fns IH]; intros [|t ts]; simpl; try done.
  intros [= Hlen]. rewrite !filter_cons. cbn [fst].
  case_decide; simpl; rewrite IH; done.
Qed.

Lemma filter_zip_all (fns : list string) (ts : list nat) (names : list string) :
  (∀ n, n ∈ fns → n ∈ names) →
  filter (λ p : string * nat, p.1 ∈ names) (zip fns ts) = zip fns ts.
Proof.
  revert ts. induction fns as [|fn fns IH]; intros [|t ts] Hall; simpl; try done.
  rewrite filter_cons. cbn [fst]. rewrite decide_True by (apply Hall; by left).
  f_equal. apply IH. intros n Hn. apply Hall. by right.
Qed.
End RegisterAll.

(** * The properties of the specification *)

(** C1, as the code has it.  When expansion from a requested task leads
    to a task whose list has a name that was never registered, [run]
    (with dependencies enabled) ends with a [KeyError] for a name that
    is not registered, and [flow.run()] is never called.  What was sent
    to the flow before the failing lookup are edge declarations and
    standalone additions only; they are not withheld. *)
Theorem run_unresolved_aborts h obj task_names :
  reachable_unresolved h obj task_names →
  ∃ cs k,
    run h obj task_names false = MkEff cs (Raise (KeyError k)) ∧
    dict_get (tasks obj) k = None ∧
    FlowRun ∉ cs ∧
    Forall (λ c, is_submission c = true) cs.
Proof.
  intros Hreach.
  destruct (run_unresolved_raises h obj task_names Hreach)
    as (cs & k & Hrun & Hnone & Hsub).
  exists cs, k. split; [done|]. split; [done|].
  split; [by apply FlowRun_not_submission | done].
Qed.

Lemma dangling_chain_reachable :
  reachable_unresolved dangling_chain.1 dangling_chain.2 ["A"].
Proof.
  exists "A", 0, 1, "ghost". split; [by left|]. split; [by left|]. split.
  - apply rtc_once. exists "B". split; [by left | done].
  - split; [by left | done].
Qed.

Lemma run_unresolved_aborts_witness :
  ∃ cs k,
    run dangling_chain.1 dangling_chain.2 ["A"] false
      = MkEff cs (Raise (KeyError k)) ∧
    dict_get (tasks dangling_chain.2) k = None ∧
    FlowRun ∉ cs ∧
    Forall (λ c, is_submission c = true) cs.
Proof.
  apply (run_unresolved_aborts dangling_chain.1 dangling_chain.2 ["A"]).
  exists "A", 0, 1, "ghost". split; [by left|]. split; [by left|]. split.
  - apply rtc_once. exists "B". split; [by left | done].
  - split; [by left | done].
Defined.

(** C1 as stated fails: with [A] depending on [B] and [B] on a name that
    is not registered, requesting [A] declares the edge from [B] to [A]
    before the lookup for [B] fails. *)
Lemma dangling_chain_submits_before_abort :
  reachable_unresolved dangling_chain.1 dangling_chain.2 ["A"] ∧
  run dangling_chain.1 dangling_chain.2 ["A"] false
    = MkEff [SetDependencies 0 [1]] (Raise (KeyError "ghost")) ∧
  ¬ (∃ k, run dangling_chain.1 dangling_chain.2 ["A"] false
          = MkEff [] (Raise (KeyError k))).
Proof.
  split; [apply dangling_chain_reachable|].
  split; [by vm_compute|].
  intros [k Hk]. vm_compute in Hk. discriminate Hk.
Qed.

(** C4.  For every registry, cyclic or not, resolution terminates: [run]
    is never cut off by the step budget and more steps change nothing;
    within one traversal (one requested task of the outer loop) each
    task is expanded at most once; and on the two-cycle, requesting [A]
    returns after declaring [B] upstream of [A] (and [A] upstream of
    [B]), each once. *)
Theorem resolution_terminates h obj task_names no_dependencies :
  result (run h obj task_names no_dependencies) ≠ Timeout ∧
  (∀ fuel, fuel_bound h obj ≤ fuel →
     run_with fuel h obj task_names no_dependencies
     = run h obj task_names no_dependencies) ∧
  (∀ fuel t,
     NoDup (expanded (calls (while_to_visit h obj no_dependencies fuel [t] ∅)))) ∧
  (dict_get (tasks two_cycle.2) "A" = Some 0 ∧
   dict_get (tasks two_cycle.2) "B" = Some 1 ∧
   run two_cycle.1 two_cycle.2 ["A"] false
     = MkEff [SetDependencies 0 [1]; SetDependencies 1 [0]; FlowRun] (Ret tt) ∧
   edges (calls (run two_cycle.1 two_cycle.2 ["A"] false)) = [(1, 0); (0, 1)]).
Proof.
  split; [apply run_terminates|].
  split; [intros fuel Hfuel; by apply run_with_fuel_mono|].
  split; [intros fuel t; apply while_expanded_once|].
  by vm_compute.
Qed.

Lemma resolution_terminates_witness :
  result (run two_cycle.1 two_cycle.2 [] false) ≠ Timeout ∧
  run_with 100 two_cycle.1 two_cycle.2 [] false
  = run two_cycle.1 two_cycle.2 [] false.
Proof.
  destruct (resolution_terminates two_cycle.1 two_cycle.2 [] false)
    as (Hterm & Hfuel & _).
  split; [exact Hterm|]. apply Hfuel. vm_compute. lia.
Defined.

(** C5.  With [--no-dependencies], and some task names requested, [run]
    adds each task registered under a requested name standalone, sends
    nothing else (no other task, no edge) and then runs the flow,
    whatever lists the tasks have. *)
Theorem run_no_dependencies_standalone h obj task_names :
  task_names ≠ [] →
  run h obj task_names true
    = MkEff ((AddTask <$> requested_tasks obj task_names) ++ [FlowRun]) (Ret tt) ∧
  standalone (calls (run h obj task_names true)) = requested_tasks obj task_names ∧
  edges (calls (run h obj task_names true)) = [] ∧
  (∀ t, t ∈ requested_tasks obj task_names ↔
        ∃ n, n ∈ task_names ∧ (n, t) ∈ tasks obj).
Proof.
  intros Hne.
  assert (run h obj task_names true
          = MkEff ((AddTask <$> requested_tasks obj task_names) ++ [FlowRun]) (Ret tt))
    as Hrun.
  { rewrite run_add; [by rewrite effective_nonempty|].
    intros t. apply andb_false_r. }
  rewrite Hrun. simpl. split; [done|].
  split; [apply standalone_add|]. split; [apply edges_add|].
  apply elem_of_requested_tasks.
Qed.

Lemma run_no_dependencies_standalone_witness :
  dependencies_get two_cycle.1 two_cycle.2 0 = Some ["B"] ∧
  run two_cycle.1 two_cycle.2 ["A"] true = MkEff [AddTask 0; FlowRun] (Ret tt).
Proof.
  split; [reflexivity|].
  destruct (run_no_dependencies_standalone two_cycle.1 two_cycle.2 ["A"])
    as (Hrun & _); [done|].
  exact Hrun.
Defined.

(** C6.  Requesting no task name is requesting every registered name:
    [run] does the same with an empty [tasks] as with any [tasks] that
    holds exactly the keys of [obj.tasks]. *)
Theorem run_empty_is_all h obj no_dependencies task_names :
  (∀ n, n ∈ task_names ↔ n ∈ dict_keys (tasks obj)) →
  run h obj [] no_dependencies = run h obj task_names no_dependencies.
Proof.
  intros Hall. unfold run, run_with. f_equal.
  rewrite effective_nil. unfold effective. case_decide as Hlen.
  - done.
  - apply for_items_ext. intros n _. by rewrite Hall.
Qed.

Lemma run_empty_is_all_witness :
  run diamond.1 diamond.2 [] false
  = run diamond.1 diamond.2 ["A"; "B"; "C"; "D"] false.
Proof.
  apply (run_empty_is_all diamond.1 diamond.2 false ["A"; "B"; "C"; "D"]).
  intros n. vm_compute dict_keys. set_solver.
Defined.

(** C9.  A requested name that was never registered is passed over:
    alone it makes [run] call [flow.run()] and nothing else, and beside
    other names it changes nothing of what [run] does for them.  An
    unregistered name in the list of a requested task is fatal instead:
    [run] ends with a [KeyError]. *)
Theorem run_ignores_unregistered h obj no_dependencies n :
  dict_get (tasks obj) n = None →
  run h obj [n] no_dependencies = MkEff [FlowRun] (Ret tt) ∧
  (∀ l1 l2, l1 ++ l2 ≠ [] →
     run h obj (l1 ++ n :: l2) no_dependencies
     = run h obj (l1 ++ l2) no_dependencies) ∧
  (∀ task_names m t,
     m ∈ effective obj task_names → (m, t) ∈ tasks obj →
     n ∈ default [] (dependencies_get h obj t) →
     ∃ cs k, run h obj task_names false = MkEff cs (Raise (KeyError k)) ∧
             dict_get (tasks obj) k = None ∧ FlowRun ∉ cs).
Proof.
  intros Hnone. pose proof (proj1 (dict_get_None _ _) Hnone) as Hkey.
  split; [|split].
  - unfold run, run_with. rewrite effective_nonempty by done.
    rewrite for_items_none; [done|].
    intros k Hk ->%list_elem_of_singleton. done.
  - intros l1 l2 Hne. unfold run, run_with.
    rewrite !effective_nonempty; [|done|by destruct l1].
    f_equal. apply for_items_ext. intros k Hk.
    rewrite !elem_of_app, elem_of_cons.
    split; [intros [?|[->|?]]; [auto | done | auto] | intros [?|?]; auto].
  - intros task_names m t Hm Hin Hn.
    destruct (run_unresolved_raises h obj task_names)
      as (cs & k & Hrun & Hk & Hsub).
    { exists m, t, t, n. split; [done|]. split; [done|].
      split; [apply rtc_refl | by split]. }
    exists cs, k. split; [done|]. split; [done|].
    by apply FlowRun_not_submission.
Qed.

Lemma run_ignores_unregistered_witness :
  run diamond.1 diamond.2 ["nobody"] false = MkEff [FlowRun] (Ret tt) ∧
  run diamond.1 diamond.2 ["B"; "nobody"] false
  = run diamond.1 diamond.2 ["B"] false.
Proof.
  destruct (run_ignores_unregistered diamond.1 diamond.2 false "nobody")
    as (Halone & Hbeside & _); [reflexivity|].
  split; [exact Halone|]. apply (Hbeside ["B"] []). discriminate.
Defined.

(** C10.  The set of fetched tasks is looked at only for a task whose
    list is non-empty: a task without names is added when it is popped,
    whatever the set holds, and the set stays as it is.  In the diamond,
    [D] is reached through [B] and through [C], and requesting [A] adds
    it twice. *)
Theorem standalone_not_guarded h obj no_dependencies n s t F :
  truthy (dependencies_get h obj t) = false →
  while_to_visit h obj no_dependencies (S n) (s ++ [t]) F
    = prepend (AddTask t) (while_to_visit h obj no_dependencies n s F) ∧
  (dict_get (tasks diamond.2) "D" = Some 0 ∧
   dependencies_get diamond.1 diamond.2 0 = Some [] ∧
   run diamond.1 diamond.2 ["A"] false
     = MkEff [SetDependencies 3 [1; 2]; SetDependencies 2 [0]; AddTask 0;
              SetDependencies 1 [0]; AddTask 0; FlowRun] (Ret tt) ∧
   standalone (calls (run diamond.1 diamond.2 ["A"] false)) = [0; 0]).
Proof.
  intros Ht. split; [|by vm_compute].
  apply while_add. by rewrite Ht.
Qed.

Lemma standalone_not_guarded_witness :
  while_to_visit diamond.1 diamond.2 false 2 [0] {[0]}
  = MkEff [AddTask 0] (Ret tt).
Proof.
  destruct (standalone_not_guarded diamond.1 diamond.2 false 1 [] 0 {[0]})
    as [Hstep _]; [reflexivity|].
  simpl app in Hstep. rewrite Hstep. reflexivity.
Defined.

(** C8, as the code has it.  With implied ordering on, the list of the
    new task is the list [depends] when that is a list object, and a new
    empty list when it is anything else (a tuple of names is dropped),
    followed by the name registered last, when there is one.  That name
    is the last of the list, except when [depends] is [self.task_order]
    itself: the name of the new task, appended to [self.task_order], then
    follows it.  When this is the first registration nothing is
    appended by implied ordering.  The name being registered becomes the
    last one registered. *)
Theorem task_implied_order h self fn depends xs :
  implied_order self = true →
  explicit h self depends = Some xs →
  let '(t, h', self') := task h self fn depends in
  dependencies_get h' self' t
    = Some (xs ++ match last (task_order self) with
                  | Some prev => [prev]
                  | None => []
                  end ++ own_name fn depends) ∧
  last (task_order self') = Some fn.
Proof.
  intros Himp Hxs. destruct (task h self fn depends) as [[t h'] self'] eqn:Ht.
  split.
  - rewrite (task_new_deps _ _ _ _ _ _ _ xs Ht Hxs). unfold implied.
    by rewrite Himp.
  - apply task_fields in Ht as (_ & _ & -> & _).
    by rewrite app_assoc, last_snoc.
Qed.

Lemma task_implied_order_witness :
  let st := register_with (∅, init true) "first" ["x"] in
  let '(r, h) := new_list st.1 ["y"; "z"] in
  let '(t, h', self') := task h st.2 "second" (ListObj r) in
  dependencies_get st.1 st.2 0 = Some ["x"] ∧
  dependencies_get h' self' t = Some ["y"; "z"; "first"] ∧
  last (task_order self') = Some "second".
Proof.
  split; [reflexivity|].
  apply (task_implied_order
           (new_list (register_with (∅, init true) "first" ["x"]).1 ["y"; "z"]).2
           (register_with (∅, init true) "first" ["x"]).2
           "second"
           (ListObj (new_list (register_with (∅, init true) "first" ["x"]).1
                       ["y"; "z"]).1)
           ["y"; "z"]); reflexivity.
Defined.

(** C8 as stated fails.  With one task registered and implied ordering
    on, a [depends] given as a tuple is dropped: the list of the new
    task holds the implied name and not the declared one.  And when
    [depends] is [self.task_order] itself, the implied name is not the
    end of the list: the name of the new task comes after it. *)
Lemma declared_tuple_dropped :
  let st := register_with (∅, init true) "first" [] in
  (let '(t, h', self') := task st.1 st.2 "second" (TupleObj ["x"]) in
   declared st.1 st.2 (TupleObj ["x"]) = Some ["x"] ∧
   dependencies_get h' self' t = Some ["first"] ∧
   dependencies_get h' self' t ≠ Some (["x"] ++ ["first"])) ∧
  (let '(t, h', self') := task st.1 st.2 "second" OrderObj in
   declared st.1 st.2 OrderObj = Some ["first"] ∧
   dependencies_get h' self' t = Some ["first"; "first"; "second"] ∧
   dependencies_get h' self' t ≠ Some (["first"] ++ ["first"])).
Proof. vm_compute. repeat split; discriminate. Qed.

(** C3, as the code has it.  After [N] bare registrations under
    different names, without implied ordering, [run] declares no edge,
    whatever names are requested, and adds standalone exactly the tasks
    whose names are requested: as many as there are requested names
    among the registered ones, and all [N] when no name is requested. *)
Theorem plain_registrations_standalone h0 fns task_names :
  NoDup fns →
  let '(ts, h, obj) := register_all h0 (init false) fns in
  length ts = length fns ∧
  dict_keys (tasks obj) = fns ∧
  run h obj task_names false
    = MkEff ((AddTask <$> requested_tasks obj (effective obj task_names))
             ++ [FlowRun]) (Ret tt) ∧
  edges (calls (run h obj task_names false)) = [] ∧
  length (standalone (calls (run h obj task_names false)))
    = length (filter (λ n, n ∈ effective obj task_names) fns) ∧
  (task_names = [] → standalone (calls (run h obj task_names false)) = ts).
Proof.
  intros Hnd.
  destruct (register_all h0 (init false) fns) as [[ts h] obj] eqn:Hreg.
  destruct (register_all_tasks h0 (init false) fns ts h obj) as [Htasks Hlen];
    [done | intros n _; apply not_elem_of_nil | done |].
  simpl in Htasks.
  assert (dict_keys (tasks obj) = fns) as Hkeys.
  { unfold dict_keys. rewrite Htasks. apply fst_zip. lia. }
  assert (run h obj task_names false
          = MkEff ((AddTask <$> requested_tasks obj (effective obj task_names))
                   ++ [FlowRun]) (Ret tt)) as Hrun.
  { apply run_add. intros t. rewrite andb_true_r.
    by apply (register_all_no_names h0 (init false) fns ts h obj). }
  rewrite Hrun. simpl. rewrite standalone_add, edges_add.
  split; [done|]. split; [done|]. split; [done|]. split; [done|]. split.
  - unfold requested_tasks. rewrite Htasks.
    by apply length_filter_zip.
  - intros ->. rewrite effective_nil, Hkeys. unfold requested_tasks.
    rewrite Htasks, filter_zip_all by done. apply snd_zip. lia.
Qed.

Lemma plain_registrations_standalone_witness :
  let '(ts, h, obj) := register_all ∅ (init false) ["a"; "b"; "c"] in
  standalone (calls (run h obj [] false)) = ts ∧
  length (standalone (calls (run h obj ["c"; "a"] false))) = 2.
Proof.
  pose proof (plain_registrations_standalone ∅ ["a"; "b"; "c"] []) as Hall.
  pose proof (plain_registrations_standalone ∅ ["a"; "b"; "c"] ["c"; "a"]) as Hsome.
  destruct (register_all ∅ (init false) ["a"; "b"; "c"]) as [[ts h] obj].
  destruct Hall as (_ & _ & _ & _ & _ & Hall); [compute_done|].
  destruct Hsome as (_ & _ & _ & _ & Hsome & _); [compute_done|].
  split; [by apply Hall | exact Hsome].
Defined.

(** C3 as stated fails: of two tasks registered without dependencies,
    requesting one adds one task, not two. *)
Lemma plain_registrations_subset :
  let '(ts, h, obj) := register_all ∅ (init false) ["a"; "b"] in
  length ts = 2 ∧
  run h obj ["a"] false = MkEff [AddTask 0; FlowRun] (Ret tt) ∧
  length (standalone (calls (run h obj ["a"] false))) ≠ 2.
Proof. vm_compute. split; [done|]. split; [done | discriminate]. Qed.

(** C7.  Registering under a name that is registered raises nothing and
    replaces the entry: the name maps to the new task, the task it
    mapped to is no longer in [self.tasks], no entry is added and the
    other names are untouched; the list of the new task is made by the
    second registration alone (the list [depends], the implied name,
    and the task's own name when that list is [self.task_order]);
    requesting the name starts from the new task alone. *)
Theorem task_overwrites h self fn depends t1 :
  registry_ok h self →
  dict_get (tasks self) fn = Some t1 →
  let '(t2, h', self') := task h self fn depends in
  dict_get (tasks self') fn = Some t2 ∧
  t2 ≠ t1 ∧
  t1 ∉ dict_values (tasks self') ∧
  dict_keys (tasks self') = dict_keys (tasks self) ∧
  (∀ n, n ≠ fn → dict_get (tasks self') n = dict_get (tasks self) n) ∧
  (∀ xs, explicit h self depends = Some xs →
         dependencies_get h' self' t2
         = Some (xs ++ implied self ++ own_name fn depends)) ∧
  requested_tasks self' [fn] = [t2] ∧
  run h' self' [fn] true = MkEff [AddTask t2; FlowRun] (Ret tt).
Proof.
  intros Hok Hget.
  destruct (task h self fn depends) as [[t2 h'] self'] eqn:Ht.
  pose proof (task_fresh _ _ _ _ _ _ _ Ht) as Hfresh.
  pose proof (task_fields _ _ _ _ _ _ _ Ht) as (_ & Htasks & _).
  pose proof (dict_get_Some_elem _ _ _ Hget) as Hin.
  assert (t2 ≠ t1) as Hne.
  { intros ->. apply Hfresh. by eapply ok_tasks. }
  assert (requested_tasks self' [fn] = [t2]) as Hreq.
  { unfold requested_tasks. apply requested_tasks_single.
    - rewrite Htasks. apply dict_set_keys_NoDup, Hok.
    - rewrite Htasks. apply dict_set_get_eq. }
  rewrite Htasks.
  split; [apply dict_set_get_eq|]. split; [done|].
  split; [|split; [|split; [|split; [|split]]]].
  - unfold dict_values. intros ([n t] & -> & Hin')%list_elem_of_fmap. simpl in *.
    apply dict_set_elem in Hin' as [[= -> ->] | [Hn Hin']]; [done | | apply Hok].
    apply Hn. pose proof (ok_values _ _ Hok) as Hv. unfold dict_values in Hv.
    apply list_elem_of_lookup in Hin as [i Hi].
    apply list_elem_of_lookup in Hin' as [j Hj].
    assert (j = i) as ->; [|congruence].
    eapply NoDup_lookup; [exact Hv | |]; rewrite list_lookup_fmap.
    + by rewrite Hj.
    + by rewrite Hi.
  - apply dict_set_keys_old. unfold dict_keys.
    apply list_elem_of_fmap. by exists (fn, t1).
  - intros n Hn. by apply dict_set_get_ne.
  - intros xs Hxs. by eapply task_new_deps.
  - done.
  - rewrite run_add by (intros t; apply andb_false_r).
    rewrite effective_nonempty by done. by rewrite Hreq.
Qed.

Lemma task_overwrites_witness :
  let st := register_with (∅, init false) "A" ["B"] in
  let '(t2, h', self') := task st.1 st.2 "A" NotAList in
  tasks st.2 = [("A", 0)] ∧
  tasks self' = [("A", t2)] ∧ t2 ≠ 0 ∧
  run h' self' ["A"] true = MkEff [AddTask t2; FlowRun] (Ret tt).
Proof.
  pose proof (task_overwrites
                (register_with (∅, init false) "A" ["B"]).1
                (register_with (∅, init false) "A" ["B"]).2
                "A" NotAList 0) as H.
  destruct (task (register_with (∅, init false) "A" ["B"]).1
                 (register_with (∅, init false) "A" ["B"]).2 "A" NotAList)
    as [[t2 h'] self'] eqn:Ht.
  destruct H as (_ & Hne & _ & _ & _ & _ & _ & Hrun).
  - eapply (task_ok _ (init false) "A" (ListObj _));
      [apply (init_ok (new_list ∅ ["B"]).2) | | reflexivity].
    vm_compute. set_solver.
  - reflexivity.
  - split; [reflexivity|]. split; [|by split].
    revert Ht. vm_compute. by intros [= <- <- <-].
Defined.

(** C2.  With implied ordering, registering [a], [b], [c] (different
    names, no explicit dependencies) and requesting [c] alone declares
    the task of [b] upstream of the task of [c] and the task of [a]
    upstream of the task of [b]: the edges of the whole chain, and no
    other.  The task of [a], which has nothing upstream, is added
    standalone, and the flow is run. *)
Theorem implied_chain_closure h0 a b c :
  a ≠ b → b ≠ c → a ≠ c →
  let '(ts, h, obj) := register_all h0 (init true) [a; b; c] in
  ∃ tA tB tC,
    ts = [tA; tB; tC] ∧ NoDup ts ∧
    tasks obj = [(a, tA); (b, tB); (c, tC)] ∧
    run h obj [c] false
      = MkEff [SetDependencies tC [tB]; SetDependencies tB [tA];
               AddTask tA; FlowRun] (Ret tt) ∧
    edges (calls (run h obj [c] false)) = [(tB, tC); (tA, tB)].
Proof.
  intros Hab Hbc Hac. rewrite register_all_cons.
  destruct (task h0 (init true) a NotAList) as [[tA h1] s1] eqn:E1.
  rewrite register_all_cons.
  destruct (task h1 s1 b NotAList) as [[tB h2] s2] eqn:E2.
  rewrite register_all_cons.
  destruct (task h2 s2 c NotAList) as [[tC h3] s3] eqn:E3.
  change (register_all h3 s3 []) with (@nil nat, h3, s3).
  pose proof (init_ok h0 true) as Hok0.
  pose proof (task_ok _ _ _ NotAList _ _ _ Hok0 I E1) as Hok1.
  pose proof (task_ok _ _ _ NotAList _ _ _ Hok1 I E2) as Hok2.
  pose proof (task_fields _ _ _ _ _ _ _ E1) as (_ & T1 & _ & I1 & D1).
  pose proof (task_fields _ _ _ _ _ _ _ E2) as (_ & T2 & _ & I2 & D2).
  pose proof (task_fields _ _ _ _ _ _ _ E3) as (_ & T3 & _ & I3 & D3).
  assert (task_order s1 = task_order (init true) ++ [a]) as O1
    by (by eapply (task_order_plain h0 (init true) a NotAList)).
  assert (task_order s2 = task_order s1 ++ [b]) as O2
    by (by eapply (task_order_plain h1 s1 b NotAList)).
  pose proof (init_plain true) as Hpl0.
  pose proof (task_plain_lists _ _ _ NotAList _ _ _ Hpl0 ltac:(done) E1) as Hpl1.
  pose proof (task_plain_lists _ _ _ NotAList _ _ _ Hpl1 ltac:(done) E2) as Hpl2.
  pose proof (task_fresh _ _ _ _ _ _ _ E2) as F2.
  pose proof (task_fresh _ _ _ _ _ _ _ E3) as F3.
  simpl in T1, O1, I1, D1.
  rewrite T1 in T2. simpl in T2. rewrite decide_False in T2 by done.
  rewrite T2 in T3. simpl in T3. rewrite !decide_False in T3 by done.
  assert (tA ≠ tB ∧ tA ≠ tC ∧ tB ≠ tC) as (NAB & NAC & NBC) by set_solver.
  (* the lists of the three tasks *)
  assert (dependencies_get h3 s3 tC = Some [b]) as LC.
  { rewrite (task_new_deps_plain _ _ _ _ _ _ E3). unfold implied.
    by rewrite I2, I1, O2, last_snoc. }
  assert (dependencies_get h3 s3 tB = Some [a]) as LB.
  { rewrite (task_old_deps _ _ _ _ _ _ tB Hok2 Hpl2 E3) by set_solver.
    rewrite (task_new_deps_plain _ _ _ _ _ _ E2). unfold implied.
    by rewrite I1, O1. }
  assert (dependencies_get h3 s3 tA = Some []) as LA.
  { rewrite (task_old_deps _ _ _ _ _ _ tA Hok2 Hpl2 E3) by set_solver.
    rewrite (task_old_deps _ _ _ _ _ _ tA Hok1 Hpl1 E2) by set_solver.
    by rewrite (task_new_deps_plain _ _ _ _ _ _ E1). }
  assert (dict_get (tasks s3) a = Some tA) as GA.
  { rewrite T3. simpl. by rewrite decide_True. }
  assert (dict_get (tasks s3) b = Some tB) as GB.
  { rewrite T3. simpl. rewrite decide_False by done. by rewrite decide_True. }
  (* the traversal from the task of [c] *)
  assert (while_to_visit h3 s3 false 4 [tC] ∅
          = MkEff [SetDependencies tC [tB]; SetDependencies tB [tA]; AddTask tA]
                  (Ret tt)) as Hwalk.
  { rewrite (while_expand h3 s3 false 3 [] tC ∅ [tB]);
      [| by rewrite LC | done | set_solver | by rewrite LC; simpl; rewrite GB].
    rewrite (while_expand h3 s3 false 2 [] tB _ [tA]);
      [| by rewrite LB | done | set_solver | by rewrite LB; simpl; rewrite GA].
    rewrite (while_add h3 s3 false 1 [] tA) by (by rewrite LA).
    done. }
  assert (run h3 s3 [c] false
          = MkEff [SetDependencies tC [tB]; SetDependencies tB [tA];
                   AddTask tA; FlowRun] (Ret tt)) as Hrun.
  { unfold run, run_with. rewrite effective_nonempty by done. rewrite T3.
    rewrite !for_items_cons.
    rewrite (bool_decide_eq_false_2 (a ∈ [c]))
      by (by intros ->%list_elem_of_singleton).
    rewrite (bool_decide_eq_false_2 (b ∈ [c]))
      by (by intros ->%list_elem_of_singleton).
    rewrite (bool_decide_eq_true_2 (c ∈ [c])) by (by left).
    rewrite (traverse_any_fuel h3 s3 false 4 tC) by (by rewrite Hwalk).
    by rewrite Hwalk. }
  cbv beta iota zeta.
  exists tA, tB, tC. split; [done|]. split.
  { repeat (apply NoDup_cons; split); [set_solver | set_solver | set_solver |].
    apply NoDup_nil_2. }
  split; [done|]. split; [done|]. by rewrite Hrun.
Qed.

Lemma implied_chain_closure_witness :
  let '(ts, h, obj) := register_all ∅ (init true) ["A"; "B"; "C"] in
  ts = [0; 1; 2] ∧
  edges (calls (run h obj ["C"] false)) = [(1, 2); (0, 1)].
Proof.
  pose proof (implied_chain_closure ∅ "A" "B" "C") as H.
  destruct (register_all ∅ (init true) ["A"; "B"; "C"]) as [[ts h] obj] eqn:Hreg.
  destruct H as (tA & tB & tC & Hts & _ & _ & _ & Hedges);
    [discriminate | discriminate | discriminate |].
  revert Hreg. vm_compute register_all. intros [= <- <- <-].
  injection Hts as <- <- <-. split; [reflexivity | exact Hedges].
Defined.

(** * Further properties of [run] and [task] *)

(** ** Every call is justified *)

Section Soundness.
Variable h : gmap nat (list string).
Variable obj : MakeCLI.
Variable nd : bool.

Lemma reached_from_root roots t : t ∈ roots → reached_from h obj roots t.
Proof. intros Hin. exists t. split; [done | apply rtc_refl]. Qed.

Lemma call_sound_mono roots roots' c :
  (∀ t0, t0 ∈ roots → reached_from h obj roots' t0) →
  call_sound h obj nd roots c → call_sound h obj nd roots' c.
Proof.
  intros Hsub.
  assert (∀ t, reached_from h obj roots t → reached_from h obj roots' t) as Hre.
  { intros t (t0 & Hin & Hrtc). destruct (Hsub t0 Hin) as (t1 & Hin1 & Hrtc1).
    exists t1. split; [done | by etrans]. }
  destruct c as [t ts|t|]; simpl; [|by intros [? ?]; split; auto | done].
  intros (? & ? & ?). split; [done|]. split; auto.
Qed.

Lemma resolved_upstream t deps ts t' :
  dependencies_get h obj t = Some deps → resolved obj deps ts → t' ∈ ts →
  upstream_of h obj t t'.
Proof.
  intros Hd Hr Hin. unfold upstream_of. rewrite Hd. simpl. clear Hd.
  induction Hr as [|k t0 deps ts Hk _ IH]; [by apply elem_of_nil in Hin|].
  apply elem_of_cons in Hin as [-> | Hin].
  - exists k. split; [by left | done].
  - destruct (IH Hin) as (k' & ? & ?). exists k'. split; [by right | done].
Qed.

Lemma while_calls_sound n s F :
  Forall (call_sound h obj nd s) (calls (while_to_visit h obj nd n s F)).
Proof.
  revert n s F.
  apply (while_ind h obj nd
           (λ n s F m, Forall (call_sound h obj nd s) (calls m))); simpl.
  - intros; constructor.
  - intros; constructor.
  - intros n s t F _ _ _ IH. eapply Forall_impl; [exact IH|].
    intros c. apply call_sound_mono. intros t0 Hin.
    apply reached_from_root, elem_of_app. by left.
  - intros n s t F ts Ht Hnd _ _ Hr IH.
    apply truthy_cons in Ht as (k & ks & Hd). rewrite Hd in Hr. simpl in Hr.
    constructor.
    + split; [done|]. split.
      * apply reached_from_root, elem_of_app. right. by left.
      * exists (k :: ks). split; [done|]. by split.
    + eapply Forall_impl; [exact IH|]. intros c. apply call_sound_mono.
      intros t0 [Hin | Hin]%elem_of_app.
      * apply reached_from_root, elem_of_app. by left.
      * exists t. split; [apply elem_of_app; right; by left|].
        apply rtc_once. by eapply resolved_upstream.
  - intros; constructor.
  - intros n s t F Hc IH. constructor.
    + split; [apply reached_from_root, elem_of_app; right; by left|].
      apply andb_false_iff in Hc as [? | ?%negb_false_iff]; auto.
    + eapply Forall_impl; [exact IH|]. intros c. apply call_sound_mono.
      intros t0 Hin. apply reached_from_root, elem_of_app. by left.
Qed.

Lemma for_items_calls_sound fuel names items :
  Forall (call_sound h obj nd
            (filter (λ p : string * nat, p.1 ∈ names) items).*2)
         (calls (for_items h obj nd fuel names items)).
Proof.
  induction items as [|[task_name t] items IH]; [constructor|].
  rewrite for_items_cons, filter_cons. cbn [fst].
  assert (Forall (call_sound h obj nd
                    (filter (λ p : string * nat, p.1 ∈ names)
                            ((task_name, t) :: items)).*2)
                 (calls (for_items h obj nd fuel names items))) as Hrest.
  { eapply Forall_impl; [exact IH|]. intros c. apply call_sound_mono.
    intros t0 Hin. apply reached_from_root. rewrite filter_cons. cbn [fst].
    case_decide; [by right | done]. }
  rewrite filter_cons in Hrest. cbn [fst] in Hrest.
  case_bool_decide as Hn.
  - rewrite decide_True in * by done.
    pose proof (while_calls_sound fuel [t] ∅) as Hw.
    assert (Forall (call_sound h obj nd
                      ((task_name, t)
                       :: filter (λ p : string * nat, p.1 ∈ names) items).*2)
                   (calls (while_to_visit h obj nd fuel [t] ∅))) as Hw'.
    { eapply Forall_impl; [exact Hw|]. intros c. apply call_sound_mono.
      intros t0 ->%list_elem_of_singleton. apply reached_from_root. by left. }
    unfold mbind, Eff_bind.
    destruct (result (while_to_visit h obj nd fuel [t] ∅)); simpl; [|done|done].
    by apply Forall_app.
  - rewrite decide_False in * by done. by rewrite bind_mret_l.
Qed.
End Soundness.

(** ** A run that returns has sent everything within reach *)

Section Completeness.
Variable h : gmap nat (list string).
Variable obj : MakeCLI.

Abbreviation has_names t := (truthy (dependencies_get h obj t) = true).
Abbreviation settled F cs t :=
  ((has_names t ∧ t ∈ F) ∨
   (truthy (dependencies_get h obj t) = false ∧ AddTask t ∈ cs)).

Lemma upstream_has_names t t' : upstream_of h obj t t' → has_names t.
Proof.
  intros (k & Hk & _).
  destruct (dependencies_get h obj t) as [[|]|]; simpl in *; try done;
    by apply elem_of_nil in Hk.
Qed.

Lemma upstream_resolved t ts t' :
  resolved obj (default [] (dependencies_get h obj t)) ts →
  upstream_of h obj t t' → t' ∈ ts.
Proof.
  intros Hr (k & Hk & Hget).
  destruct (resolved_elem obj _ _ _ Hr Hk) as (t'' & Hget' & Hin). congruence.
Qed.

Lemma while_ret_complete n s F :
  result (while_to_visit h obj false n s F) = Ret tt →
  ∃ F' : gset nat,
    F ⊆ F' ∧
    (∀ t, t ∈ F' → t ∈ F ∨
       ∃ ts, SetDependencies t ts ∈ calls (while_to_visit h obj false n s F) ∧
             resolved obj (default [] (dependencies_get h obj t)) ts) ∧
    (∀ t, t ∈ F' → t ∉ F → ∀ t', upstream_of h obj t t' →
       settled F' (calls (while_to_visit h obj false n s F)) t') ∧
    (∀ t, t ∈ s → settled F' (calls (while_to_visit h obj false n s F)) t).
Proof.
  revert n s F.
  apply (while_ind h obj false
    (λ n s F m, result m = Ret tt →
       ∃ F' : gset nat,
         F ⊆ F' ∧
         (∀ t, t ∈ F' → t ∈ F ∨
            ∃ ts, SetDependencies t ts ∈ calls m ∧
                  resolved obj (default [] (dependencies_get h obj t)) ts) ∧
         (∀ t, t ∈ F' → t ∉ F → ∀ t', upstream_of h obj t t' →
            settled F' (calls m) t') ∧
         (∀ t, t ∈ s → settled F' (calls m) t))); simpl; try done.
  - intros _ F _. exists F. split; [done|]. split; [by left|].
    split; [done|]. by intros t ?%elem_of_nil.
  - intros n s t F Ht _ HF IH Hret.
    destruct (IH Hret) as (F' & Hsub & Hexp & Hup & Hs).
    exists F'. split; [done|]. split; [done|]. split; [done|].
    intros x [Hx | ->%list_elem_of_singleton]%elem_of_app; [by apply Hs|].
    left. split; [done | by apply Hsub].
  - intros n s t F ts Ht _ HF _ Hr IH Hret.
    destruct (IH Hret) as (F' & Hsub & Hexp & Hup & Hs).
    exists F'. split; [set_solver|]. split; [|split].
    + intros x Hx. destruct (Hexp x Hx) as [[->%elem_of_singleton | ?]%elem_of_union
                                            | (ts' & Hin & Hr')].
      * right. exists ts. split; [by left | done].
      * by left.
      * right. exists ts'. split; [by right | done].
    + intros x Hx HxF t' Hxt'. destruct (decide (x = t)) as [-> | Hne].
      * pose proof (upstream_resolved _ _ _ Hr Hxt') as Hin.
        destruct (Hs t') as [? | [? ?]]; [apply elem_of_app; by right | by left |].
        right. split; [done | by right].
      * destruct (Hup x Hx) with (t' := t') as [? | [? ?]];
          [set_solver | done | by left |].
        right. split; [done | by right].
    + intros x [Hx | ->%list_elem_of_singleton]%elem_of_app.
      * destruct (Hs x) as [? | [? ?]]; [apply elem_of_app; by left | by left |].
        right. split; [done | by right].
      * left. split; [done|]. apply Hsub. set_solver.
  - intros n s t F Hc IH Hret. rewrite andb_true_r in Hc.
    destruct (IH Hret) as (F' & Hsub & Hexp & Hup & Hs).
    exists F'. split; [done|]. split; [|split].
    + intros x Hx. destruct (Hexp x Hx) as [? | (ts' & Hin & Hr')]; [by left|].
      right. exists ts'. split; [by right | done].
    + intros x Hx HxF t' Hxt'.
      destruct (Hup x Hx HxF t' Hxt') as [? | [? ?]]; [by left|].
      right. split; [done | by right].
    + intros x [Hx | ->%list_elem_of_singleton]%elem_of_app.
      * destruct (Hs x Hx) as [? | [? ?]]; [by left|].
        right. split; [done | by right].
      * right. split; [done | by left].
Qed.

(** From one task: what is within reach has been expanded, if it has
    names, and added, if it has none. *)
Lemma traverse_ret_complete n t0 t :
  result (while_to_visit h obj false n [t0] ∅) = Ret tt →
  rtc (upstream_of h obj) t0 t →
  (has_names t →
   ∃ ts, SetDependencies t ts ∈ calls (while_to_visit h obj false n [t0] ∅) ∧
         resolved obj (default [] (dependencies_get h obj t)) ts) ∧
  (truthy (dependencies_get h obj t) = false →
   AddTask t ∈ calls (while_to_visit h obj false n [t0] ∅)).
Proof.
  intros Hret Hreach.
  destruct (while_ret_complete n [t0] ∅ Hret) as (F' & _ & Hexp & Hup & Hs).
  set (cs := calls (while_to_visit h obj false n [t0] ∅)) in *.
  assert (settled F' cs t) as Hset.
  { assert (settled F' cs t0) as H0 by (apply Hs; by left).
    clearbody cs. clear Hs Hret Hexp.
    induction Hreach as [t | t t1 t2 Hstep _ IH]; [done|].
    apply IH. destruct H0 as [[_ HF] | [Hf _]].
    - by apply (Hup t HF (not_elem_of_empty t)).
    - apply upstream_has_names in Hstep. congruence. }
  split.
  - intros Ht. destruct Hset as [[_ HF] | [Hf _]]; [|congruence].
    destruct (Hexp t HF) as [?%not_elem_of_empty | ?]; done.
  - intros Hf. destruct Hset as [[Ht _] | [_ ?]]; [congruence | done].
Qed.

(** A [KeyError] comes from a task within reach of the stack. *)
Lemma while_raise_reached nd n s F k :
  result (while_to_visit h obj nd n s F) = Raise (KeyError k) →
  ∃ t, reached_from h obj s t ∧ unresolved h obj t k.
Proof.
  revert n s F.
  apply (while_ind h obj nd
           (λ n s F m, result m = Raise (KeyError k) →
                       ∃ t, reached_from h obj s t ∧ unresolved h obj t k));
    simpl; try done.
  - intros n s t F _ _ _ IH Hres. destruct (IH Hres) as (x & (t0 & Hin & Hr) & Hun).
    exists x. split; [|done]. exists t0. split; [|done]. apply elem_of_app. by left.
  - intros n s t F ts Ht _ _ _ Hr IH Hres.
    destruct (IH Hres) as (x & (t0 & Hin & Hreach) & Hun).
    exists x. split; [|done].
    apply elem_of_app in Hin as [Hin | Hin].
    + exists t0. split; [apply elem_of_app; by left | done].
    + exists t. split; [apply elem_of_app; right; by left|].
      eapply rtc_l; [|exact Hreach].
      apply truthy_cons in Ht as (k' & ks & Hd). rewrite Hd in Hr.
      by eapply resolved_upstream.
  - intros n s t F k' _ _ _ _ Hin Hnone [= ->].
    exists t. split; [|by split].
    apply reached_from_root, elem_of_app. right. by left.
  - intros n s t F _ IH Hres. destruct (IH Hres) as (x & (t0 & Hin & Hr) & Hun).
    exists x. split; [|done]. exists t0. split; [|done]. apply elem_of_app. by left.
Qed.
End Completeness.

(** ** From the traversals to [run] *)

Section RunStructure.
Variable h : gmap nat (list string).
Variable obj : MakeCLI.
Variable nd : bool.

Abbreviation selected names items :=
  (filter (λ p : string * nat, p.1 ∈ names) items).*2.

Lemma run_unfold names :
  run h obj names nd =
  match result (for_items h obj nd (fuel_bound h obj) (effective obj names)
                  (tasks obj)) with
  | Ret _ =>
      MkEff (calls (for_items h obj nd (fuel_bound h obj) (effective obj names)
                      (tasks obj)) ++ [FlowRun]) (Ret tt)
  | Raise e =>
      MkEff (calls (for_items h obj nd (fuel_bound h obj) (effective obj names)
                      (tasks obj))) (Raise e)
  | Timeout =>
      MkEff (calls (for_items h obj nd (fuel_bound h obj) (effective obj names)
                      (tasks obj))) Timeout
  end.
Proof.
  unfold run, run_with, mbind, Eff_bind.
  by destruct (result (for_items _ _ _ _ _ _)).
Qed.

Lemma for_items_ret_inv fuel names items n t0 :
  result (for_items h obj nd fuel names items) = Ret tt →
  (n, t0) ∈ items → n ∈ names →
  result (while_to_visit h obj nd fuel [t0] ∅) = Ret tt ∧
  ∀ c, c ∈ calls (while_to_visit h obj nd fuel [t0] ∅) →
       c ∈ calls (for_items h obj nd fuel names items).
Proof.
  intros Hret Hin Hn.
  induction items as [|[task_name t] items IH]; [by apply elem_of_nil in Hin|].
  rewrite for_items_cons in Hret |- *.
  set (m := if bool_decide (task_name ∈ names)
            then while_to_visit h obj nd fuel [t] ∅ else mret tt) in *.
  unfold mbind, Eff_bind in Hret |- *.
  destruct (result m) as [[]| |] eqn:Hm; [simpl in Hret | done | done].
  apply elem_of_cons in Hin as [[= <- <-] | Hin].
  - unfold m in *. rewrite bool_decide_eq_true_2 in * by done.
    split; [done|]. intros c Hc. simpl. apply elem_of_app. by left.
  - destruct IH as [Hret' Hsub]; [by destruct (result (for_items _ _ _ _ _ items)) as [[]| |] | done |].
    split; [done|]. intros c Hc. simpl. apply elem_of_app. right. by apply Hsub.
Qed.

Lemma for_items_raise_reached fuel names items k :
  result (for_items h obj nd fuel names items) = Raise (KeyError k) →
  ∃ t, reached_from h obj (selected names items) t ∧ unresolved h obj t k.
Proof.
  induction items as [|[task_name t] items IH]; [done|].
  rewrite for_items_cons, filter_cons. cbn [fst].
  case_bool_decide as Hn.
  - rewrite decide_True by done. unfold mbind, Eff_bind.
    destruct (result (while_to_visit h obj nd fuel [t] ∅)) as [[]|e|] eqn:Hw;
      simpl; [| |done].
    + intros Hres. destruct (IH Hres) as (x & (t0 & Hin & Hr) & Hun).
      exists x. split; [|done]. exists t0. split; [by right | done].
    + intros [= ->].
      destruct (while_raise_reached h obj nd fuel [t] ∅ k Hw)
        as (x & (t0 & ->%list_elem_of_singleton & Hr) & Hun).
      exists x. split; [|done]. exists t. split; [by left | done].
  - rewrite decide_False by done. by rewrite bind_mret_l.
Qed.

Lemma reached_requested names t :
  reached_from h obj (requested_tasks obj names) t ↔
  ∃ n t0, n ∈ names ∧ (n, t0) ∈ tasks obj ∧ rtc (upstream_of h obj) t0 t.
Proof.
  unfold reached_from. split.
  - intros (t0 & (n & ? & ?)%elem_of_requested_tasks & ?). by exists n, t0.
  - intros (n & t0 & ? & ? & ?). exists t0. split; [|done].
    apply elem_of_requested_tasks. by exists n.
Qed.
End RunStructure.

Lemma elem_of_edges cs u t :
  (u, t) ∈ edges cs ↔ ∃ ts, SetDependencies t ts ∈ cs ∧ u ∈ ts.
Proof.
  unfold edges. rewrite list_elem_of_bind. split.
  - intros ([t' ts| |] & Hin & Hc); simpl in Hin;
      [|by apply elem_of_nil in Hin..].
    apply list_elem_of_fmap in Hin as (u' & [= -> ->] & Hu'). by exists ts.
  - intros (ts & Hc & Hu). exists (SetDependencies t ts). split; [|done].
    simpl. apply list_elem_of_fmap. by exists u.
Qed.

Lemma elem_of_standalone cs t : t ∈ standalone cs ↔ AddTask t ∈ cs.
Proof.
  unfold standalone. rewrite list_elem_of_bind. split.
  - intros ([| t' |] & Hin & Hc); simpl in Hin;
      [by apply elem_of_nil in Hin | | by apply elem_of_nil in Hin].
    by apply list_elem_of_singleton in Hin as ->.
  - intros Hc. exists (AddTask t). split; [by left | done].
Qed.

Lemma upstream_registered h obj t t' :
  upstream_of h obj t t' → t' ∈ dict_values (tasks obj).
Proof.
  intros (k & _ & Hget%dict_get_Some_elem). unfold dict_values.
  apply list_elem_of_fmap. by exists (k, t').
Qed.

Lemma reached_registered h obj roots t :
  (∀ t0, t0 ∈ roots → t0 ∈ dict_values (tasks obj)) →
  reached_from h obj roots t → t ∈ dict_values (tasks obj).
Proof.
  intros Hroots (t0 & Hin & Hreach).
  apply rtc_inv_r in Hreach as [<- | (t1 & _ & Hstep)]; [auto|].
  by eapply upstream_registered.
Qed.

(** ** Properties of [run] *)

Lemma for_items_resolved_returns h obj task_names :
  ¬ reachable_unresolved h obj task_names →
  result (for_items h obj false (fuel_bound h obj) (effective obj task_names)
            (tasks obj)) = Ret tt.
Proof.
  intros Hnone.
  pose proof (for_items_terminates h obj false (fuel_bound h obj)
                (effective obj task_names) (tasks obj) (le_n _)) as Hterm.
  destruct (result (for_items h obj false (fuel_bound h obj)
                      (effective obj task_names) (tasks obj)))
    as [[]|[k]|] eqn:Hres; [done | | done].
  exfalso. apply Hnone.
  destruct (for_items_raise_reached _ _ _ _ _ _ _ Hres) as (t & Hreach & Hun).
  apply reached_requested in Hreach as (n & t0 & ? & ? & ?).
  by exists n, t0, t, k.
Qed.

(** X1.  When no task within reach of the requested tasks has an
    unregistered name in its list, [run] (with dependencies enabled)
    returns normally, and its last call, and only that one, is
    [flow.run()]. *)
Theorem run_returns_when_resolved h obj task_names :
  ¬ reachable_unresolved h obj task_names →
  ∃ cs, run h obj task_names false = MkEff (cs ++ [FlowRun]) (Ret tt) ∧
        Forall (λ c, is_submission c = true) cs.
Proof.
  intros Hnone. rewrite run_unfold.
  rewrite (for_items_resolved_returns h obj task_names Hnone).
  eexists. split; [done|].
  apply for_items_calls_submissions.
Qed.

Lemma run_returns_when_resolved_witness :
  ∃ cs, run diamond.1 diamond.2 ["A"] false = MkEff (cs ++ [FlowRun]) (Ret tt) ∧
        Forall (λ c, is_submission c = true) cs.
Proof.
  apply (run_returns_when_resolved diamond.1 diamond.2 ["A"]).
  intros Hreach.
  destruct (run_unresolved_raises _ _ _ Hreach) as (cs & k & Hrun & _).
  vm_compute in Hrun. discriminate Hrun.
Defined.

(** X2.  When [run] ends with [KeyError k], dependencies were enabled
    and [k] is a name that is not registered, in the list of a task
    within reach of a requested task. *)
Theorem run_abort_reports_reachable h obj task_names no_dependencies cs k :
  run h obj task_names no_dependencies = MkEff cs (Raise (KeyError k)) →
  no_dependencies = false ∧
  ∃ t, reached_from h obj (requested_tasks obj (effective obj task_names)) t ∧
       k ∈ default [] (dependencies_get h obj t) ∧
       dict_get (tasks obj) k = None.
Proof.
  intros Hrun. split.
  - destruct no_dependencies; [|done].
    rewrite run_add in Hrun by (intros t; apply andb_false_r). done.
  - rewrite run_unfold in Hrun.
    destruct (result (for_items h obj no_dependencies (fuel_bound h obj)
                        (effective obj task_names) (tasks obj)))
      as [[]|e|] eqn:Hres; [done | | done].
    injection Hrun as _ ->.
    by destruct (for_items_raise_reached _ _ _ _ _ _ _ Hres) as (t & ? & ?); exists t.
Qed.

Lemma run_abort_reports_reachable_witness :
  ∃ t, reached_from dangling_chain.1 dangling_chain.2
         (requested_tasks dangling_chain.2 ["A"]) t ∧
       "ghost" ∈ default [] (dependencies_get dangling_chain.1 dangling_chain.2 t) ∧
       dict_get (tasks dangling_chain.2) "ghost" = None.
Proof.
  apply (run_abort_reports_reachable dangling_chain.1 dangling_chain.2 ["A"]
           false [SetDependencies 0 [1]] "ghost").
  by vm_compute.
Defined.

Lemma run_submission_sound h obj task_names no_dependencies c :
  c ∈ calls (run h obj task_names no_dependencies) → c ≠ FlowRun →
  call_sound h obj no_dependencies
    (requested_tasks obj (effective obj task_names)) c.
Proof.
  pose proof (for_items_calls_sound h obj no_dependencies (fuel_bound h obj)
                (effective obj task_names) (tasks obj)) as Hall.
  rewrite run_unfold. intros Hc Hne.
  assert (c ∈ calls (for_items h obj no_dependencies (fuel_bound h obj)
                       (effective obj task_names) (tasks obj))) as Hin.
  { destruct (result (for_items h obj no_dependencies (fuel_bound h obj)
                        (effective obj task_names) (tasks obj)));
      simpl in Hc; [|done|done].
    by apply elem_of_app in Hc as [? | ?%list_elem_of_singleton]. }
  by apply (proj1 (Forall_forall _ _) Hall).
Qed.

(** X3.  Every call [run] makes before [flow.run()] is justified, also
    when it aborts: [set_dependencies(t, ts)] is made only with
    dependencies enabled, for a task [t] within reach of a requested
    task whose list is non-empty, and [ts] are the tasks registered
    under the names of that list, in the order of the list; [add_task]
    is made for a task within reach that has no names, or under
    [--no-dependencies]. *)
Theorem run_calls_sound h obj task_names no_dependencies c :
  c ∈ calls (run h obj task_names no_dependencies) →
  c = FlowRun ∨
  call_sound h obj no_dependencies
    (requested_tasks obj (effective obj task_names)) c.
Proof.
  pose proof (for_items_calls_sound h obj no_dependencies (fuel_bound h obj)
                (effective obj task_names) (tasks obj)) as Hall.
  rewrite run_unfold.
  destruct (result (for_items h obj no_dependencies (fuel_bound h obj)
                      (effective obj task_names) (tasks obj))); simpl.
  - intros [Hc | ->%list_elem_of_singleton]%elem_of_app; [right | by left].
    by apply (proj1 (Forall_forall _ _) Hall).
  - intros Hc. right. by apply (proj1 (Forall_forall _ _) Hall).
  - intros Hc. right. by apply (proj1 (Forall_forall _ _) Hall).
Qed.

Lemma run_calls_sound_witness :
  call_sound diamond.1 diamond.2 false
    (requested_tasks diamond.2 ["A"]) (SetDependencies 3 [1; 2]).
Proof.
  destruct (run_calls_sound diamond.1 diamond.2 ["A"] false
              (SetDependencies 3 [1; 2])) as [Hc | Hc].
  - assert (calls (run diamond.1 diamond.2 ["A"] false)
            = [SetDependencies 3 [1; 2]; SetDependencies 2 [0]; AddTask 0;
               SetDependencies 1 [0]; AddTask 0; FlowRun]) as -> by (by vm_compute).
    by left.
  - discriminate Hc.
  - exact Hc.
Defined.

(** X4.  When [run] (with dependencies enabled) returns, the edges it
    declared are exactly the dependency edges within reach of the
    requested tasks: [u] is declared upstream of [t] if and only if [t]
    is within reach of a requested task and [u] is registered under a
    name in the list of [t]. *)
Theorem run_edges_exact h obj task_names :
  result (run h obj task_names false) = Ret tt →
  ∀ u t,
    (u, t) ∈ edges (calls (run h obj task_names false)) ↔
    reached_from h obj (requested_tasks obj (effective obj task_names)) t ∧
    upstream_of h obj t u.
Proof.
  intros Hret u t. split.
  - intros (ts & Hc & Hu)%elem_of_edges.
    apply run_submission_sound in Hc as (_ & Hreach & deps & Hd & _ & Hr);
      [|done].
    split; [done | by eapply resolved_upstream].
  - intros [(n & t0 & Hn & Hin & Hreach)%reached_requested Hup].
    rewrite run_unfold in Hret |- *.
    destruct (result (for_items h obj false (fuel_bound h obj)
                        (effective obj task_names) (tasks obj)))
      as [[]| |] eqn:Hres; [|done|done].
    destruct (for_items_ret_inv _ _ _ _ _ _ _ _ Hres Hin Hn) as [Hw Hsub].
    destruct (traverse_ret_complete _ _ _ _ t Hw Hreach) as [Hexp _].
    destruct Hexp as (ts & Hc & Hr); [by eapply upstream_has_names|].
    apply elem_of_edges. exists ts. split.
    + simpl. apply elem_of_app. left. by apply Hsub.
    + by eapply upstream_resolved.
Qed.

Lemma run_edges_exact_witness :
  (0, 2) ∈ edges (calls (run diamond.1 diamond.2 ["A"] false)) ↔
  reached_from diamond.1 diamond.2 (requested_tasks diamond.2 ["A"]) 2 ∧
  upstream_of diamond.1 diamond.2 2 0.
Proof.
  apply (run_edges_exact diamond.1 diamond.2 ["A"]). by vm_compute.
Defined.

(** X5.  When [run] (with dependencies enabled) returns, the tasks it
    added standalone are exactly the tasks within reach of the
    requested tasks that have no names to fetch. *)
Theorem run_standalone_exact h obj task_names :
  result (run h obj task_names false) = Ret tt →
  ∀ t,
    t ∈ standalone (calls (run h obj task_names false)) ↔
    reached_from h obj (requested_tasks obj (effective obj task_names)) t ∧
    truthy (dependencies_get h obj t) = false.
Proof.
  intros Hret t. rewrite elem_of_standalone. split.
  - intros Hc. apply run_submission_sound in Hc as [Hreach [? | ?]]; done.
  - intros [(n & t0 & Hn & Hin & Hreach)%reached_requested Hf].
    rewrite run_unfold in Hret |- *.
    destruct (result (for_items h obj false (fuel_bound h obj)
                        (effective obj task_names) (tasks obj)))
      as [[]| |] eqn:Hres; [|done|done].
    destruct (for_items_ret_inv _ _ _ _ _ _ _ _ Hres Hin Hn) as [Hw Hsub].
    destruct (traverse_ret_complete _ _ _ _ t Hw Hreach) as [_ Hadd].
    simpl. apply elem_of_app. left. by apply Hsub, Hadd.
Qed.

Lemma run_standalone_exact_witness :
  0 ∈ standalone (calls (run diamond.1 diamond.2 ["B"] false)) ↔
  reached_from diamond.1 diamond.2 (requested_tasks diamond.2 ["B"]) 0 ∧
  truthy (dependencies_get diamond.1 diamond.2 0) = false.
Proof.
  apply (run_standalone_exact diamond.1 diamond.2 ["B"]). by vm_compute.
Defined.

(** X6.  [run] hands the flow registered tasks only: every task in a
    call, the task itself and its upstream tasks, is a value of
    [obj.tasks]. *)
Theorem run_submits_registered_only h obj task_names no_dependencies c t :
  c ∈ calls (run h obj task_names no_dependencies) →
  t ∈ mentioned c →
  t ∈ dict_values (tasks obj).
Proof.
  intros Hc Ht.
  assert (∀ x, reached_from h obj
                 (requested_tasks obj (effective obj task_names)) x →
               x ∈ dict_values (tasks obj)) as Hreg.
  { intros x. apply reached_registered.
    intros t0 (n & _ & Hin)%elem_of_requested_tasks.
    unfold dict_values. apply list_elem_of_fmap. by exists (n, t0). }
  destruct c as [t' ts | t' |]; [| |by apply elem_of_nil in Ht];
    (apply run_submission_sound in Hc; [|done]); simpl in *.
  - destruct Hc as (_ & Hreach & deps & Hd & _ & Hr).
    apply elem_of_cons in Ht as [-> | Ht]; [auto|].
    eapply upstream_registered, resolved_upstream; eauto.
  - destruct Hc as [Hreach _]. apply list_elem_of_singleton in Ht as ->. auto.
Qed.

Lemma run_submits_registered_only_witness :
  1 ∈ dict_values (tasks two_cycle.2).
Proof.
  apply (run_submits_registered_only two_cycle.1 two_cycle.2 ["A"] false
           (SetDependencies 0 [1]) 1).
  - assert (calls (run two_cycle.1 two_cycle.2 ["A"] false)
            = [SetDependencies 0 [1]; SetDependencies 1 [0]; FlowRun])
      as -> by (by vm_compute).
    by left.
  - simpl. right. by left.
Defined.

(** X7.  Only which names are requested matters, not their order or
    repetition: two requests with the same names make [run] do the same;
    the tasks are visited in the order of registration. *)
Theorem run_request_as_set h obj no_dependencies names1 names2 :
  (∀ n, n ∈ names1 ↔ n ∈ names2) →
  run h obj names1 no_dependencies = run h obj names2 no_dependencies.
Proof.
  intros Hsame. unfold run, run_with. f_equal.
  destruct names1 as [|n1 names1], names2 as [|n2 names2].
  - done.
  - exfalso. eapply not_elem_of_nil, Hsame. by left.
  - exfalso. eapply not_elem_of_nil, Hsame. by left.
  - rewrite !effective_nonempty by done. apply for_items_ext. by intros n _.
Qed.

Lemma run_request_as_set_witness :
  run diamond.1 diamond.2 ["A"; "B"] false
  = run diamond.1 diamond.2 ["B"; "A"; "B"] false.
Proof.
  apply (run_request_as_set diamond.1 diamond.2 false ["A"; "B"] ["B"; "A"; "B"]).
  intros n. set_solver.
Defined.

(** X8.  When none of the names that count is registered (none of the
    requested ones, or nothing is registered at all), [run] submits
    nothing and still calls [flow.run()]. *)
Theorem run_nothing_to_submit h obj task_names no_dependencies :
  (∀ n, n ∈ effective obj task_names → n ∉ dict_keys (tasks obj)) →
  run h obj task_names no_dependencies = MkEff [FlowRun] (Ret tt).
Proof.
  intros Hnone. unfold run, run_with. rewrite for_items_none; [done|].
  intros k Hk Hin. by apply (Hnone k).
Qed.

Lemma run_nothing_to_submit_witness :
  run ∅ (init true) [] false = MkEff [FlowRun] (Ret tt) ∧
  run diamond.1 diamond.2 ["x"; "y"] false = MkEff [FlowRun] (Ret tt).
Proof.
  split.
  - apply (run_nothing_to_submit ∅ (init true) [] false).
    intros n Hn. vm_compute in Hn. by apply elem_of_nil in Hn.
  - apply (run_nothing_to_submit diamond.1 diamond.2 ["x"; "y"] false).
    intros n Hn. vm_compute dict_keys. vm_compute in Hn. set_solver.
Defined.

(** ** Order of the lookups, of the traversal and of the outer loop *)

Section Order.
Variable h : gmap nat (list string).
Variable obj : MakeCLI.

Lemma dep_objs_of_resolved deps ts :
  resolved obj deps ts → dep_objs_of obj deps = MkEff [] (Ret ts).
Proof.
  induction 1 as [|k t deps ts Hk _ IH]; [done|].
  simpl. by rewrite Hk, IH.
Qed.

(** The names are looked up from left to right. *)
Lemma dep_objs_of_first_missing l1 k l2 :
  (∀ x, x ∈ l1 → x ∈ dict_keys (tasks obj)) →
  dict_get (tasks obj) k = None →
  dep_objs_of obj (l1 ++ k :: l2) = raise (KeyError k).
Proof.
  intros Hl1 Hk. induction l1 as [|x l1 IH]; simpl; [by rewrite Hk|].
  destruct (dict_get (tasks obj) x) as [t|] eqn:Hx.
  - rewrite IH; [done|]. intros y Hy. apply Hl1. by right.
  - exfalso. apply dict_get_None in Hx. apply Hx, Hl1. by left.
Qed.

Lemma for_items_single_raise nd fuel items m t e :
  dict_get items m = Some t →
  while_to_visit h obj nd fuel [t] ∅ = raise e →
  for_items h obj nd fuel [m] items = raise e.
Proof.
  intros Hget Hw. induction items as [|[k v] items IH]; [done|].
  rewrite for_items_cons. simpl in Hget. case_decide as Hk.
  - injection Hget as ->. subst k.
    rewrite bool_decide_eq_true_2 by (by left). by rewrite Hw.
  - rewrite bool_decide_eq_false_2 by (by intros ->%list_elem_of_singleton).
    rewrite bind_mret_l. by apply IH.
Qed.

(** Tasks without names are added from the top of the stack down. *)
Lemma while_leaves nd n s F :
  (∀ t, t ∈ s → truthy (dependencies_get h obj t) && negb nd = false) →
  length s < n →
  while_to_visit h obj nd n s F = MkEff (AddTask <$> reverse s) (Ret tt).
Proof.
  revert s. induction n as [|n IH]; intros s Hs Hlen; [lia|].
  destruct (pop_cases s) as [-> | (s' & t & ->)]; [done|].
  rewrite while_add by (apply Hs, elem_of_app; right; by left).
  rewrite length_app in Hlen. simpl in Hlen.
  rewrite IH; [|intros x Hx; apply Hs, elem_of_app; by left | lia].
  by rewrite reverse_snoc.
Qed.

Lemma for_items_concat nd fuel names items :
  (∀ t, t ∈ (filter (λ p : string * nat, p.1 ∈ names) items).*2 →
        result (while_to_visit h obj nd fuel [t] ∅) = Ret tt) →
  for_items h obj nd fuel names items =
  MkEff ((filter (λ p : string * nat, p.1 ∈ names) items).*2
           ≫= λ t, calls (while_to_visit h obj nd fuel [t] ∅))
        (Ret tt).
Proof.
  induction items as [|[k t] items IH]; intros Hall; [done|].
  rewrite for_items_cons. rewrite filter_cons in Hall |- *. cbn [fst] in *.
  case_bool_decide as Hk.
  - rewrite decide_True in * by done.
    rewrite IH by (intros x Hx; apply Hall; by right).
    rewrite (bind_Ret _ _ tt) by (apply Hall; by left). done.
  - rewrite decide_False in * by done. rewrite bind_mret_l. by apply IH.
Qed.

Lemma list_bind_singleton {A B} (f : A → list B) (x : A) : [x] ≫= f = f x.
Proof. simpl. apply app_nil_r. Qed.

Lemma expanded_app cs1 cs2 : expanded (cs1 ++ cs2) = expanded cs1 ++ expanded cs2.
Proof. unfold expanded. apply bind_app. Qed.

Lemma NoDup_occurrences (l : list nat) (t : nat) :
  NoDup l → length (filter (λ x, x = t) l) ≤ 1.
Proof.
  induction 1 as [|x l Hx _ IH]; [simpl; lia|].
  rewrite filter_cons. case_decide as Heq; [subst x | lia]. simpl.
  assert (filter (λ x, x = t) l = []) as ->; [|simpl; lia].
  clear IH. induction l as [|y l IH]; [done|].
  apply not_elem_of_cons in Hx as [Hne Hx].
  rewrite filter_cons, decide_False by done. auto.
Qed.

Lemma for_items_expansions nd fuel names items t :
  length (filter (λ x, x = t)
            (expanded (calls (for_items h obj nd fuel names items))))
  ≤ length (filter (λ p : string * nat, p.1 ∈ names) items).*2.
Proof.
  induction items as [|[k v] items IH]; [simpl; lia|].
  rewrite for_items_cons, filter_cons. cbn [fst].
  case_bool_decide as Hk.
  - rewrite decide_True by done.
    pose proof (proj1 (while_expanded_once h obj nd fuel [v] ∅)) as Hnd.
    apply (NoDup_occurrences _ t) in Hnd.
    unfold mbind, Eff_bind. rewrite fmap_cons, length_cons.
    destruct (result (while_to_visit h obj nd fuel [v] ∅)); cbn [calls].
    + rewrite expanded_app, filter_app, length_app. lia.
    + lia.
    + lia.
  - rewrite decide_False by done. by rewrite bind_mret_l.
Qed.

Lemma while_calls_length nd n s F :
  length (calls (while_to_visit h obj nd n s F)) ≤ length s + cost h obj F.
Proof.
  revert n s F.
  apply (while_ind h obj nd
           (λ n s F m, length (calls m) ≤ length s + cost h obj F)); simpl.
  - intros; lia.
  - intros; lia.
  - intros n s t F _ _ _ IH. rewrite length_app. simpl. lia.
  - intros n s t F ts Ht _ HF _ Hr IH. rewrite !length_app in *. simpl.
    apply truthy_cons in Ht as (k & ks & Hd).
    pose proof (cost_fetch h obj t _ F Hd HF).
    rewrite Hd in Hr. simpl in Hr. apply resolved_length in Hr. lia.
  - intros; lia.
  - intros n s t F _ IH. rewrite length_app. simpl. lia.
Qed.

Lemma for_items_calls_length nd fuel names items :
  length (calls (for_items h obj nd fuel names items))
  ≤ length (filter (λ p : string * nat, p.1 ∈ names) items).*2
    * S (cost h obj ∅).
Proof.
  induction items as [|[k v] items IH]; [simpl; lia|].
  rewrite for_items_cons, filter_cons. cbn [fst].
  case_bool_decide as Hk.
  - rewrite decide_True by done.
    pose proof (while_calls_length nd fuel [v] ∅) as Hw.
    change (length [v]) with 1 in Hw.
    unfold mbind, Eff_bind. rewrite fmap_cons, length_cons.
    destruct (result (while_to_visit h obj nd fuel [v] ∅)); cbn [calls].
    + rewrite length_app. lia.
    + lia.
    + lia.
  - rewrite decide_False by done. by rewrite bind_mret_l.
Qed.
End Order.

(** X9.  Requesting one task whose own list has an unregistered name:
    the names are looked up from left to right before anything is sent,
    so [run] raises [KeyError] for the first unregistered name of the
    list and the flow receives no call at all. *)
Theorem run_first_missing_name h obj m t l1 k l2 :
  dict_get (tasks obj) m = Some t →
  dependencies_get h obj t = Some (l1 ++ k :: l2) →
  (∀ x, x ∈ l1 → x ∈ dict_keys (tasks obj)) →
  dict_get (tasks obj) k = None →
  run h obj [m] false = MkEff [] (Raise (KeyError k)).
Proof.
  intros Hm Hd Hl1 Hk. unfold run, run_with, fuel_bound.
  rewrite effective_nonempty by done.
  rewrite (for_items_single_raise h obj false _ (tasks obj) m t (KeyError k));
    [done | done |].
  apply (while_fail h obj false _ [] t ∅ (KeyError k)).
  - rewrite Hd. by destruct l1.
  - done.
  - apply not_elem_of_empty.
  - rewrite Hd. simpl. by apply dep_objs_of_first_missing.
Qed.

Lemma run_first_missing_name_witness :
  let st := register_with (register_with (∅, init false) "B" [])
              "A" ["B"; "y"; "B"; "z"] in
  run st.1 st.2 ["A"] false = MkEff [] (Raise (KeyError "y")).
Proof.
  apply (run_first_missing_name _ _ "A" 1 ["B"] "y" ["B"; "z"]).
  - reflexivity.
  - reflexivity.
  - intros x ->%list_elem_of_singleton. vm_compute. by left.
  - reflexivity.
Defined.

(** X10.  Requesting one task whose upstream tasks have no names of
    their own: [run] declares the upstream tasks once, then adds them
    standalone from the last name of the list to the first, once per
    occurrence of a name, and runs the flow. *)
Theorem run_fan h obj task_names t deps ts :
  requested_tasks obj (effective obj task_names) = [t] →
  dependencies_get h obj t = Some deps → deps ≠ [] →
  resolved obj deps ts →
  (∀ u, u ∈ ts → truthy (dependencies_get h obj u) = false) →
  run h obj task_names false
  = MkEff (SetDependencies t ts :: (AddTask <$> reverse ts) ++ [FlowRun])
          (Ret tt).
Proof.
  intros Hreq Hd Hne Hr Hleaves.
  assert (while_to_visit h obj false (S (S (length ts))) [t] ∅
          = MkEff (SetDependencies t ts :: (AddTask <$> reverse ts)) (Ret tt))
    as Hwalk.
  { rewrite (while_expand h obj false _ [] t ∅ ts).
    - rewrite while_leaves; [done | | simpl; lia].
      intros u Hu. simpl in Hu. by rewrite Hleaves.
    - rewrite Hd. by destruct deps.
    - done.
    - apply not_elem_of_empty.
    - rewrite Hd. simpl. by apply dep_objs_of_resolved. }
  assert (while_to_visit h obj false (fuel_bound h obj) [t] ∅
          = MkEff (SetDependencies t ts :: (AddTask <$> reverse ts)) (Ret tt))
    as Hwalk'.
  { rewrite (traverse_any_fuel h obj false (S (S (length ts)))); [done|].
    by rewrite Hwalk. }
  unfold run, run_with. rewrite for_items_concat.
  - unfold requested_tasks in Hreq. rewrite Hreq.
    rewrite (list_bind_singleton _ t), Hwalk'. done.
  - unfold requested_tasks in Hreq. rewrite Hreq.
    intros x ->%list_elem_of_singleton. by rewrite Hwalk'.
Qed.

Lemma run_fan_witness :
  let st := register_with
              (register_with (register_with (∅, init false) "x" []) "y" [])
              "top" ["x"; "y"; "x"] in
  run st.1 st.2 ["top"] false
  = MkEff [SetDependencies 2 [0; 1; 0]; AddTask 0; AddTask 1; AddTask 0;
           FlowRun] (Ret tt).
Proof.
  apply (run_fan _ _ ["top"] 2 ["x"; "y"; "x"] [0; 1; 0]).
  - reflexivity.
  - reflexivity.
  - discriminate.
  - repeat constructor.
  - intros u Hu.
    assert (u = 0 ∨ u = 1) as [-> | ->] by set_solver; reflexivity.
Defined.

(** X11.  The guard against repeated expansion is per requested task:
    in one [run] a task is expanded at most as many times as there are
    requested tasks. *)
Theorem run_expansions_bounded h obj task_names no_dependencies t :
  length (filter (λ x, x = t)
            (expanded (calls (run h obj task_names no_dependencies))))
  ≤ length (requested_tasks obj (effective obj task_names)).
Proof.
  pose proof (for_items_expansions h obj no_dependencies (fuel_bound h obj)
                (effective obj task_names) (tasks obj) t) as Hle.
  rewrite run_unfold. unfold requested_tasks.
  destruct (result (for_items h obj no_dependencies (fuel_bound h obj)
                      (effective obj task_names) (tasks obj))); cbn [calls];
    [|done|done].
  rewrite expanded_app, filter_app, length_app. simpl. lia.
Qed.

(** X12.  A [run] that returns is the traversals of the requested
    tasks one after the other, in the order of registration, each
    starting with nothing fetched, followed by [flow.run()]. *)
Theorem run_is_concatenation h obj task_names no_dependencies :
  result (run h obj task_names no_dependencies) = Ret tt →
  calls (run h obj task_names no_dependencies)
  = (requested_tasks obj (effective obj task_names)
       ≫= (λ t, calls (while_to_visit h obj no_dependencies
                          (fuel_bound h obj) [t] ∅)))
    ++ [FlowRun].
Proof.
  intros Hret. rewrite run_unfold in Hret |- *.
  destruct (result (for_items h obj no_dependencies (fuel_bound h obj)
                      (effective obj task_names) (tasks obj)))
    as [[]| |] eqn:Hres; [|done|done].
  cbn [calls]. f_equal. rewrite for_items_concat; [done|].
  intros t ([n t'] & -> & [Hn Hin]%list_elem_of_filter)%list_elem_of_fmap.
  by destruct (for_items_ret_inv _ _ _ _ _ _ _ _ Hres Hin Hn).
Qed.

Lemma run_is_concatenation_witness :
  calls (run two_cycle.1 two_cycle.2 [] false)
  = ([SetDependencies 0 [1]; SetDependencies 1 [0]]
     ++ [SetDependencies 1 [0]; SetDependencies 0 [1]]) ++ [FlowRun].
Proof.
  rewrite (run_is_concatenation two_cycle.1 two_cycle.2 [] false);
    [reflexivity | by vm_compute].
Defined.

(** X13.  The guard bounds the calls of [run] whatever the step
    budget: with any budget, however large, and so for [run] itself,
    there are per requested task at most one more call than the number
    of stored lists plus the number of names in them, and one more call
    for [flow.run()]. *)
Theorem run_calls_bounded h obj task_names no_dependencies :
  (∀ fuel,
     length (calls (run_with fuel h obj task_names no_dependencies))
     ≤ length (requested_tasks obj (effective obj task_names))
       * S (cost h obj ∅) + 1) ∧
  length (calls (run h obj task_names no_dependencies))
  ≤ length (requested_tasks obj (effective obj task_names))
    * S (cost h obj ∅) + 1.
Proof.
  assert (∀ fuel,
     length (calls (run_with fuel h obj task_names no_dependencies))
     ≤ length (requested_tasks obj (effective obj task_names))
       * S (cost h obj ∅) + 1) as Hall; [|split; [done | apply Hall]].
  intros fuel.
  pose proof (for_items_calls_length h obj no_dependencies fuel
                (effective obj task_names) (tasks obj)) as Hle.
  unfold run_with, requested_tasks, mbind, Eff_bind.
  destruct (result (for_items h obj no_dependencies fuel
                      (effective obj task_names) (tasks obj))); cbn [calls];
    [rewrite length_app; simpl; lia | lia | lia].
Qed.

(** ** Properties of [task] *)

(** X14.  [task] does not copy [depends]: with implied ordering and a
    task registered before, the name registered last is appended to the
    list object [depends] itself (and, when that object is
    [self.task_order], the new name after it), so every task registered
    with that same list object has these names in its list from then
    on. *)
Theorem task_appends_in_place h self fn depends l xs prev :
  implied_order self = true →
  last (task_order self) = Some prev →
  arg_loc depends = Some l →
  list_at h (task_order self) l = Some xs →
  let '(t, h', self') := task h self fn depends in
  list_at h' (task_order self') l
    = Some (xs ++ [prev] ++ own_name fn depends) ∧
  ∀ t0, dependencies self !! t0 = Some l →
        dependencies_get h' self' t0
        = Some (xs ++ [prev] ++ own_name fn depends).
Proof.
  intros Himp Hlast Hloc Hxs.
  destruct (task h self fn depends) as [[t h'] self'] eqn:Ht.
  assert (list_at h' (task_order self') l
          = Some (xs ++ [prev] ++ own_name fn depends)) as Hl.
  { revert Ht. unfold task. rewrite Himp, Hlast.
    destruct depends as [|r| |ys]; simplify_eq/=; intros [= <- <- <-]; simpl.
    - by rewrite lookup_alter_eq, Hxs.
    - by rewrite <-app_assoc. }
  split; [done|]. intros t0 Ht0. unfold dependencies_get.
  destruct (task_new_loc _ _ _ _ _ _ _ Ht) as (l' & -> & _).
  destruct (decide (t = t0)) as [<- | Hne].
  - exfalso. apply (task_fresh _ _ _ _ _ _ _ Ht). apply elem_of_dom. eauto.
  - rewrite lookup_insert_ne by done. by rewrite Ht0.
Qed.

Lemma task_appends_in_place_witness :
  let '(r, h0) := new_list ∅ ["x"] in
  let '(t1, h1, s1) := task h0 (init true) "one" (ListObj r) in
  let '(t2, h2, s2) := task h1 s1 "two" (ListObj r) in
  let '(t3, h3, s3) := task h2 s2 "three" OrderObj in
  let '(t4, h4, s4) := task h3 s3 "four" OrderObj in
  dependencies_get h1 s1 t1 = Some ["x"] ∧
  dependencies_get h2 s2 t1 = Some ["x"; "one"] ∧
  dependencies_get h3 s3 t3 = Some ["one"; "two"; "two"; "three"] ∧
  dependencies_get h4 s4 t3
  = Some ["one"; "two"; "two"; "three"; "three"; "four"].
Proof.
  pose proof (task_appends_in_place
                (task (new_list ∅ ["x"]).2 (init true) "one"
                      (ListObj (new_list ∅ ["x"]).1)).1.2
                (task (new_list ∅ ["x"]).2 (init true) "one"
                      (ListObj (new_list ∅ ["x"]).1)).2
                "two" (ListObj 0) (Ref 0) ["x"] "one"
                eq_refl eq_refl eq_refl eq_refl) as [_ Hshared].
  split; [reflexivity|]. split; [apply (Hshared 0); reflexivity|].
  split; [reflexivity|].
  set (st3 := task (task (task (new_list ∅ ["x"]).2 (init true) "one"
                            (ListObj 0)).1.2
                      (task (new_list ∅ ["x"]).2 (init true) "one"
                            (ListObj 0)).2 "two" (ListObj 0)).1.2
                   (task (task (new_list ∅ ["x"]).2 (init true) "one"
                            (ListObj 0)).1.2
                      (task (new_list ∅ ["x"]).2 (init true) "one"
                            (ListObj 0)).2 "two" (ListObj 0)).2
                   "three" OrderObj).
  pose proof (task_appends_in_place st3.1.2 st3.2 "four" OrderObj OrderList
                ["one"; "two"; "two"; "three"] "three"
                eq_refl eq_refl eq_refl eq_refl) as [_ Horder].
  apply (Horder 2). reflexivity.
Defined.

(** X15.  [task] changes at most two list objects: the list it is
    handed, by appending the implied name when there is one, and
    [self.task_order], to which it always appends the new name.  Every
    other list of the caller stays as it is, and the entries of
    [self.dependencies] for the tasks registered before keep pointing to
    the same list objects; so a task whose list is [self.task_order]
    has the grown list as its list. *)
Theorem task_other_lists_unchanged h self fn depends :
  let '(t, h', self') := task h self fn depends in
  (∀ r0, r0 ∈ dom h → depends ≠ ListObj r0 ∨ implied self = [] →
         h' !! r0 = h !! r0) ∧
  task_order self'
    = task_order self
      ++ match depends with OrderObj => implied self | _ => [] end ++ [fn] ∧
  (∀ t0, t0 ∈ dom (dependencies self) →
         dependencies self' !! t0 = dependencies self !! t0) ∧
  (∀ t0, dependencies self !! t0 = Some OrderList →
         dependencies_get h' self' t0 = Some (task_order self')).
Proof.
  destruct (task h self fn depends) as [[t h'] self'] eqn:Ht.
  pose proof (task_fresh _ _ _ _ _ _ _ Ht) as Hfresh.
  pose proof (task_fields _ _ _ _ _ _ _ Ht) as (_ & _ & Horder & _).
  destruct (task_new_loc _ _ _ _ _ _ _ Ht) as (l & Hl & _).
  assert (∀ t0, t0 ∈ dom (dependencies self) →
                dependencies self' !! t0 = dependencies self !! t0) as Hold.
  { intros t0 Ht0. rewrite Hl. apply lookup_insert_ne. by intros <-. }
  split; [|split; [done | split; [done|]]].
  - intros r0 Hr0 Hor.
    assert (fresh (dom h) ≠ r0) as Hne
      by (intros <-; by apply (is_fresh (dom h))).
    clear Horder Hl Hold Hfresh. revert Ht Hor.
    task_cases depends self; intros [= <- <- <-] Hor;
      rewrite ?lookup_alter_ne, ?lookup_insert_ne; try done.
    intros ->. by destruct Hor.
  - intros t0 Ht0. unfold dependencies_get.
    rewrite Hold by (apply elem_of_dom; eauto). by rewrite Ht0.
Qed.

Lemma task_other_lists_unchanged_witness :
  (task (new_list ∅ ["x"]).2 (init false) "one"
        (ListObj (new_list ∅ ["x"]).1)).1.2 !! 0
  = Some ["x"].
Proof.
  pose proof (task_other_lists_unchanged (new_list ∅ ["x"]).2 (init false)
                "one" (ListObj (new_list ∅ ["x"]).1)) as H.
  destruct (task (new_list ∅ ["x"]).2 (init false) "one"
              (ListObj (new_list ∅ ["x"]).1)) as [[t h'] self'].
  destruct H as [Hlists _]. cbn [fst snd]. rewrite (Hlists 0).
  - reflexivity.
  - vm_compute. set_solver.
  - right. reflexivity.
Defined.

Lemma implied_registered_before self k :
  k ∈ implied self → k ∈ task_order self.
Proof.
  unfold implied. destruct (implied_order self); [|by intros ?%elem_of_nil].
  destruct (last (task_order self)) as [prev|] eqn:Hlast;
    [|by intros ?%elem_of_nil].
  intros ->%list_elem_of_singleton. apply last_Some in Hlast as [l ->].
  apply elem_of_app. right. by left.
Qed.

Lemma task_names_agree_step h self fn depends t h' self' :
  names_agree self →
  task h self fn depends = (t, h', self') →
  names_agree self' ∧
  (∀ n, n ∈ dict_keys (tasks self) → n ∈ dict_keys (tasks self')) ∧
  (∀ k, k ∈ implied self → k ∈ dict_keys (tasks self')).
Proof.
  intros Hagree Ht.
  apply task_fields in Ht as (_ & Htasks & Horder & _).
  assert (∀ n, n ∈ dict_keys (tasks self') ↔ n ∈ dict_keys (tasks self) ∨ n = fn)
    as Hkeys.
  { intros n. rewrite Htasks, dict_set_keys. case_decide as Hfn.
    - split; [by left | intros [? | ->]; done].
    - rewrite elem_of_app, list_elem_of_singleton. done. }
  split; [|split].
  - intros n. rewrite Hkeys, Horder, !elem_of_app, list_elem_of_singleton.
    rewrite (Hagree n). split; [intros [? | ?]; auto|].
    intros [? | [Hn | ?]]; auto. left.
    destruct depends; try (by apply elem_of_nil in Hn).
    by apply implied_registered_before.
  - intros n Hn. apply Hkeys. by left.
  - intros k Hk%implied_registered_before.
    apply Hkeys. left. by apply Hagree.
Qed.

(** X16.  [self.tasks] and [self.task_order] always hold the same
    names, so the name implied ordering appends is a registered name:
    an implied dependency is never an unresolved reference. *)
Theorem task_keeps_names_agree h self fn depends b :
  names_agree (init b) ∧
  (names_agree self →
   let '(t, h', self') := task h self fn depends in
   names_agree self' ∧
   ∀ k, k ∈ implied self → is_Some (dict_get (tasks self') k)).
Proof.
  split; [done|]. intros Hagree.
  destruct (task h self fn depends) as [[t h'] self'] eqn:Ht.
  destruct (task_names_agree_step _ _ _ _ _ _ _ Hagree Ht) as (? & _ & Himp).
  split; [done|]. intros k Hk%Himp.
  destruct (dict_get (tasks self') k) eqn:Hget; [done|].
  by apply dict_get_None in Hget.
Qed.

Lemma task_keeps_names_agree_witness :
  let '(t, h', self') :=
    task (register_with (∅, init true) "one" []).1
         (register_with (∅, init true) "one" []).2 "two" NotAList in
  names_agree self' ∧ dict_get (tasks self') "one" = Some 0.
Proof.
  pose proof (task_keeps_names_agree
                (register_with (∅, init true) "one" []).1
                (register_with (∅, init true) "one" []).2
                "two" NotAList true) as [_ H].
  destruct (task (register_with (∅, init true) "one" []).1
                 (register_with (∅, init true) "one" []).2 "two" NotAList)
    as [[t h'] self'] eqn:Ht.
  destruct H as [Hagree _].
  - intros n. vm_compute dict_keys. vm_compute task_order. done.
  - split; [exact Hagree|]. revert Ht. vm_compute. by intros [= <- <- <-].
Defined.

(** ** Sequences of registrations *)

Section Sequences.
Implicit Types (h : gmap nat (list string)) (self : MakeCLI).

Lemma task_plain_keeps_resolved h self fn t h' self' :
  registry_ok h self → plain_lists self →
  names_agree self → lists_resolved h self →
  task h self fn NotAList = (t, h', self') →
  registry_ok h' self' ∧ plain_lists self' ∧
  names_agree self' ∧ lists_resolved h' self'.
Proof.
  intros Hok Hplain Hagree Hres Ht.
  destruct (task_names_agree_step _ _ _ _ _ _ _ Hagree Ht) as (Hagree' & Hmono & Himp).
  split; [by apply (task_ok h self fn NotAList t h' self')|].
  split; [by apply (task_plain_lists h self fn NotAList t h' self')|].
  split; [done|].
  intros t0 xs k Hxs Hk.
  destruct (decide (t0 = t)) as [-> | Hne].
  - rewrite (task_new_deps_plain _ _ _ _ _ _ Ht) in Hxs.
    injection Hxs as <-. by apply Himp.
  - assert (t0 ∈ dom (dependencies self)) as Hdom.
    { pose proof (task_fields _ _ _ _ _ _ _ Ht) as (_ & _ & _ & _ & Hd).
      unfold dependencies_get in Hxs.
      destruct (dependencies self' !! t0) as [r|] eqn:Hr; [|done].
      assert (t0 ∈ dom (dependencies self')) as Hin by (apply elem_of_dom; eauto).
      rewrite Hd in Hin. set_solver. }
    rewrite (task_old_deps _ _ _ _ _ _ t0 Hok Hplain Ht Hdom) in Hxs.
    apply Hmono. by eapply Hres.
Qed.

Lemma register_all_keeps_resolved h self fns ts h' self' :
  registry_ok h self → plain_lists self →
  names_agree self → lists_resolved h self →
  register_all h self fns = (ts, h', self') →
  registry_ok h' self' ∧ plain_lists self' ∧
  names_agree self' ∧ lists_resolved h' self'.
Proof.
  revert h self ts.
  induction fns as [|fn fns IH]; intros h self ts Hok Hpl Hag Hres.
  - by intros [= <- <- <-].
  - rewrite register_all_cons.
    destruct (task h self fn NotAList) as [[t h1] s1] eqn:Ht.
    destruct (register_all h1 s1 fns) as [[ts' h2] s2] eqn:Hrest.
    intros [= <- <- <-].
    destruct (task_plain_keeps_resolved _ _ _ _ _ _ Hok Hpl Hag Hres Ht)
      as (? & ? & ? & ?).
    by eapply IH.
Qed.

Lemma lists_resolved_no_unresolved h self names :
  lists_resolved h self → ¬ reachable_unresolved h self names.
Proof.
  intros Hres (n & t0 & t & k & _ & _ & _ & [Hk Hnone]).
  destruct (dependencies_get h self t) as [xs|] eqn:Hxs;
    [|by apply elem_of_nil in Hk].
  apply dict_get_None in Hnone. apply Hnone. by eapply Hres.
Qed.

Lemma register_all_app h self fns1 fns2 :
  register_all h self (fns1 ++ fns2) =
  let '(ts1, h1, s1) := register_all h self fns1 in
  let '(ts2, h2, s2) := register_all h1 s1 fns2 in
  (ts1 ++ ts2, h2, s2).
Proof.
  revert h self. induction fns1 as [|fn fns1 IH]; intros h self.
  - simpl. by destruct (register_all h self fns2) as [[ts2 h2] s2].
  - rewrite <-app_comm_cons, !register_all_cons.
    destruct (task h self fn NotAList) as [[t h1] s1].
    rewrite IH.
    destruct (register_all h1 s1 fns1) as [[ts1 h2] s2].
    by destruct (register_all h2 s2 fns2) as [[ts2 h3] s3].
Qed.

Lemma register_all_fields h self fns ts h' self' :
  register_all h self fns = (ts, h', self') →
  length ts = length fns ∧
  task_order self' = task_order self ++ fns ∧
  ∀ n, n ∉ fns → dict_get (tasks self') n = dict_get (tasks self) n.
Proof.
  revert h self ts. induction fns as [|fn fns IH]; intros h self ts.
  - intros [= <- <- <-]. by rewrite app_nil_r.
  - rewrite register_all_cons.
    destruct (task h self fn NotAList) as [[t h1] s1] eqn:Ht.
    destruct (register_all h1 s1 fns) as [[ts' h2] s2] eqn:Hrest.
    intros [= <- <- <-].
    pose proof (task_order_plain h self fn NotAList t h1 s1 ltac:(done) Ht)
      as Horder.
    apply task_fields in Ht as (_ & Htasks & _).
    destruct (IH _ _ _ Hrest) as (Hlen & Hord & Hget).
    split; [simpl; by rewrite Hlen|]. split.
    + by rewrite Hord, Horder, <-app_assoc.
    + intros n [Hne Hn]%not_elem_of_cons.
      rewrite Hget, Htasks by done. by apply dict_set_get_ne.
Qed.
End Sequences.

(** X17.  After bare registrations only, with or without implied
    ordering and whatever the names (repeated ones included), [run]
    never raises: it returns and ends with [flow.run()], for every
    request. *)
Theorem bare_registrations_never_raise h0 b fns task_names no_dependencies :
  let '(ts, h, obj) := register_all h0 (init b) fns in
  ∃ cs, run h obj task_names no_dependencies = MkEff (cs ++ [FlowRun]) (Ret tt).
Proof.
  destruct (register_all h0 (init b) fns) as [[ts h] obj] eqn:Hreg.
  destruct no_dependencies.
  - rewrite run_add by (intros t; apply andb_false_r). by eexists.
  - destruct (register_all_keeps_resolved h0 (init b) fns ts h obj)
      as (_ & _ & _ & Hres);
      [apply init_ok | apply init_plain | done | | done |].
    { intros t xs k Hxs. unfold dependencies_get in Hxs. simpl in Hxs.
      by rewrite lookup_empty in Hxs. }
    rewrite run_unfold, for_items_resolved_returns;
      [by eexists | by apply lists_resolved_no_unresolved].
Qed.

(** X18.  After a sequence of bare registrations, a name maps to the
    task returned by its last registration, and [task_order] holds every
    registration, in order, repeated names included. *)
Theorem register_last_wins h0 b fns1 n fns2 :
  n ∉ fns2 →
  let '(ts, h, obj) := register_all h0 (init b) (fns1 ++ n :: fns2) in
  is_Some (ts !! length fns1) ∧
  dict_get (tasks obj) n = ts !! length fns1 ∧
  task_order obj = fns1 ++ n :: fns2.
Proof.
  intros Hn. rewrite register_all_app.
  destruct (register_all h0 (init b) fns1) as [[ts1 h1] s1] eqn:H1.
  rewrite register_all_cons.
  destruct (task h1 s1 n NotAList) as [[t h2] s2] eqn:Ht.
  destruct (register_all h2 s2 fns2) as [[ts2 h3] s3] eqn:H2.
  apply register_all_fields in H1 as (Hlen1 & Hord1 & _).
  apply register_all_fields in H2 as (_ & Hord2 & Hget2).
  apply task_fields in Ht as (_ & Htasks & Horder & _).
  assert ((ts1 ++ t :: ts2) !! length fns1 = Some t) as Hlook.
  { rewrite lookup_app_r by lia. by rewrite Hlen1, Nat.sub_diag. }
  rewrite Hlook. split; [done|]. split.
  - rewrite Hget2, Htasks by done. apply dict_set_get_eq.
  - rewrite Hord2, Horder, Hord1. simpl. by rewrite <-app_assoc.
Qed.

Lemma register_last_wins_witness :
  let '(ts, h, obj) := register_all ∅ (init true) ["a"; "b"; "a"; "c"] in
  ts = [0; 1; 2; 3] ∧
  dict_get (tasks obj) "a" = Some 2 ∧
  dict_keys (tasks obj) = ["a"; "b"; "c"] ∧
  task_order obj = ["a"; "b"; "a"; "c"].
Proof.
  pose proof (register_last_wins ∅ true ["a"; "b"] "a" ["c"]) as H.
  simpl app in H.
  destruct (register_all ∅ (init true) ["a"; "b"; "a"; "c"])
    as [[ts h] obj] eqn:Hreg.
  destruct H as (_ & Hget & Hord); [set_solver|].
  revert Hreg Hget Hord. vm_compute register_all. intros [= <- <- <-] Hget Hord.
  split; [reflexivity|]. split; [exact Hget|]. split; [reflexivity | exact Hord].
Defined.

(** X19.  With implied ordering, registering again the name that was
    registered last makes the new task depend on its own name, which by
    then maps to the new task itself: requesting the name declares the
    task upstream of itself, once, and runs the flow. *)
Theorem implied_self_dependency h self fn :
  registry_ok h self →
  implied_order self = true →
  last (task_order self) = Some fn →
  let '(t, h', self') := task h self fn NotAList in
  dependencies_get h' self' t = Some [fn] ∧
  dict_get (tasks self') fn = Some t ∧
  run h' self' [fn] false = MkEff [SetDependencies t [t]; FlowRun] (Ret tt).
Proof.
  intros Hok Himp Hlast.
  destruct (task h self fn NotAList) as [[t h'] self'] eqn:Ht.
  assert (dependencies_get h' self' t = Some [fn]) as Hd.
  { rewrite (task_new_deps _ _ _ _ _ _ _ [] Ht eq_refl). unfold implied.
    by rewrite Himp, Hlast. }
  pose proof (task_fields _ _ _ _ _ _ _ Ht) as (_ & Htasks & _).
  assert (dict_get (tasks self') fn = Some t) as Hget
    by (rewrite Htasks; apply dict_set_get_eq).
  split; [done|]. split; [done|].
  assert (while_to_visit h' self' false 3 [t] ∅
          = MkEff [SetDependencies t [t]] (Ret tt)) as Hwalk.
  { rewrite (while_expand h' self' false 2 [] t ∅ [t]);
      [| by rewrite Hd | done | apply not_elem_of_empty
       | by rewrite Hd; simpl; rewrite Hget].
    rewrite (while_skip h' self' false 1 [] t); [done | by rewrite Hd | done |].
    set_solver. }
  unfold run, run_with. rewrite effective_nonempty by done.
  rewrite for_items_concat.
  - rewrite (requested_tasks_single (tasks self') fn t); [| |done].
    + rewrite (list_bind_singleton _ t).
      rewrite (traverse_any_fuel h' self' false 3 t) by (by rewrite Hwalk).
      by rewrite Hwalk.
    + rewrite Htasks. apply dict_set_keys_NoDup, Hok.
  - rewrite (requested_tasks_single (tasks self') fn t); [| |done].
    + intros x ->%list_elem_of_singleton.
      rewrite (traverse_any_fuel h' self' false 3 t) by (by rewrite Hwalk).
      by rewrite Hwalk.
    + rewrite Htasks. apply dict_set_keys_NoDup, Hok.
Qed.

Lemma implied_self_dependency_witness :
  let '(ts, h, obj) := register_all ∅ (init true) ["a"; "a"] in
  run h obj ["a"] false = MkEff [SetDependencies 1 [1]; FlowRun] (Ret tt).
Proof.
  pose proof (implied_self_dependency
                (task ∅ (init true) "a" NotAList).1.2
                (task ∅ (init true) "a" NotAList).2 "a") as H.
  change (register_all ∅ (init true) ["a"; "a"])
    with (let '(t1, h1, s1) := task ∅ (init true) "a" NotAList in
          let '(t2, h2, s2) := task h1 s1 "a" NotAList in
          ([t1; t2], h2, s2)).
  destruct (task ∅ (init true) "a" NotAList) as [[t1 h1] s1] eqn:H1.
  cbn [fst snd] in H.
  destruct (task h1 s1 "a" NotAList) as [[t2 h2] s2] eqn:H2.
  destruct H as (_ & _ & Hrun).
  - by apply (task_ok ∅ (init true) "a" NotAList t1 h1 s1 (init_ok ∅ true) I).
  - revert H1. vm_compute. by intros [= <- <- <-].
  - revert H1. vm_compute. by intros [= <- <- <-].
  - assert (t2 = 1) as <-; [|exact Hrun].
    revert H1 H2. vm_compute task. intros [= <- <- <-]. vm_compute.
    by intros [= <- <- <-].
Defined.

(** ** Implied ordering over any number of registrations *)

Section Chain.
Implicit Types (h : gmap nat (list string)) (self : MakeCLI).

Lemma implied_chain_step h self ns ts fn t h' self' :
  implied_chain h self ns ts → registry_ok h self → plain_lists self →
  task_order self = ns → implied_order self = true → fn ∉ ns →
  task h self fn NotAList = (t, h', self') →
  implied_chain h' self' (ns ++ [fn]) (ts ++ [t]) ∧ registry_ok h' self' ∧
  plain_lists self' ∧
  task_order self' = ns ++ [fn] ∧ implied_order self' = true.
Proof.
  intros (Htasks & Hlen & Hdeps) Hok Hplain Horder Himp Hfn Ht.
  pose proof (task_fields _ _ _ _ _ _ _ Ht) as (_ & Htasks' & _ & Himp' & _).
  pose proof (task_order_plain h self fn NotAList t h' self' ltac:(done) Ht)
    as Horder'.
  split; [|split; [by apply (task_ok h self fn NotAList t h' self') |
                   split; [by apply (task_plain_lists h self fn NotAList t h' self') |
                   split; [by rewrite Horder', Horder | by rewrite Himp']]]].
  split; [|split].
  - rewrite Htasks', Htasks, dict_set_new.
    + symmetry. by rewrite (zip_with_app pair ns [fn] ts [t]).
    + unfold dict_keys. rewrite fst_zip by lia. done.
  - rewrite !length_app. simpl. lia.
  - intros i x Hx. destruct (decide (i < length ts)) as [Hlt | Hge].
    + rewrite lookup_app_l in Hx by done.
      rewrite (task_old_deps _ _ _ _ _ _ x Hok Hplain Ht).
      * rewrite (Hdeps i x Hx). destruct i as [|j]; [done|].
        rewrite lookup_app_l by lia. done.
      * destruct (lookup_lt_is_Some_2 ns i) as [n Hn]; [lia|].
        apply (ok_tasks _ _ Hok n). rewrite Htasks.
        apply (list_elem_of_lookup_2 _ i). apply lookup_zip_with_Some.
        by exists n, x.
    + rewrite lookup_app_r in Hx by lia.
      destruct (i - length ts) as [|d] eqn:Hd; [|by destruct d].
      injection Hx as ->. assert (i = length ns) as -> by lia.
      rewrite (task_new_deps_plain _ _ _ _ _ _ Ht). unfold implied.
      rewrite Himp, Horder, last_lookup. simpl.
      destruct ns as [|n0 ns0]; [done|]. simpl length. simpl Init.Nat.pred.
      cbv beta iota.
      rewrite (lookup_app_l (n0 :: ns0) [fn] (length ns0)) by (simpl; lia).
      destruct (lookup_lt_is_Some_2 (n0 :: ns0) (length ns0)) as [n Hn];
        [simpl; lia|].
      by rewrite Hn.
Qed.

Lemma register_all_chain h self ns ts0 fns ts h' self' :
  implied_chain h self ns ts0 → registry_ok h self → plain_lists self →
  task_order self = ns → implied_order self = true →
  NoDup (ns ++ fns) →
  register_all h self fns = (ts, h', self') →
  implied_chain h' self' (ns ++ fns) (ts0 ++ ts) ∧ registry_ok h' self'.
Proof.
  revert h self ns ts0 ts.
  induction fns as [|fn fns IH];
    intros h self ns ts0 ts Hch Hok Hpl Hord Himp Hnd.
  - intros [= <- <- <-]. by rewrite !app_nil_r.
  - rewrite register_all_cons.
    destruct (task h self fn NotAList) as [[t h1] s1] eqn:Ht.
    destruct (register_all h1 s1 fns) as [[ts' h2] s2] eqn:Hrest.
    intros [= <- <- <-].
    assert (fn ∉ ns) as Hfn.
    { apply NoDup_app in Hnd as (_ & Hdisj & _). intros Hin.
      apply (Hdisj fn Hin). by left. }
    destruct (implied_chain_step _ _ _ _ _ _ _ _ Hch Hok Hpl Hord Himp Hfn Ht)
      as (Hch1 & Hok1 & Hpl1 & Hord1 & Himp1).
    replace (ns ++ fn :: fns) with ((ns ++ [fn]) ++ fns)
      by (by rewrite <-app_assoc).
    replace (ts0 ++ t :: ts') with ((ts0 ++ [t]) ++ ts')
      by (by rewrite <-app_assoc).
    eapply IH; try done. by rewrite <-app_assoc.
Qed.

Lemma chain_calls_snoc (l : list nat) (u t : nat) :
  chain_calls (reverse ((l ++ [u]) ++ [t]))
  = SetDependencies t [u] :: chain_calls (reverse (l ++ [u])).
Proof. by rewrite !reverse_snoc. Qed.

(** Walking down a chain from its [k]-th task. *)
Lemma chain_walk h obj ns ts k :
  implied_chain h obj ns ts → NoDup ns → NoDup ts →
  ∀ F t, ts !! k = Some t →
    (∀ i u, i ≤ k → ts !! i = Some u → u ∉ F) →
    while_to_visit h obj false (S (S k)) [t] F
    = MkEff (chain_calls (reverse (take (S k) ts))) (Ret tt).
Proof.
  intros (Htasks & Hlen & Hdeps) Hns Hts.
  induction k as [|j IH]; intros F t Ht HF.
  - rewrite (while_add h obj false 1 [] t) by (by rewrite (Hdeps 0 t Ht)).
    destruct ts as [|t0 ts']; [done|]. by injection Ht as ->.
  - destruct (lookup_lt_is_Some_2 ts j) as [u Hu];
      [apply lookup_lt_Some in Ht; lia|].
    destruct (lookup_lt_is_Some_2 ns j) as [n Hn];
      [apply lookup_lt_Some in Hu; lia|].
    assert (dependencies_get h obj t = Some [n]) as Hd
      by (by rewrite (Hdeps (S j) t Ht), Hn).
    assert (dict_get (tasks obj) n = Some u) as Hget.
    { apply dict_get_elem.
      - unfold dict_keys. rewrite Htasks, fst_zip by lia. done.
      - rewrite Htasks. apply (list_elem_of_lookup_2 _ j).
        apply lookup_zip_with_Some. by exists n, u. }
    rewrite (while_expand h obj false (S (S j)) [] t _ [u]);
      [| by rewrite Hd | done | by apply (HF (S j)) | by rewrite Hd; simpl; rewrite Hget].
    simpl app. rewrite (IH ({[t]} ∪ F) u Hu).
    + rewrite (take_S_r ts (S j) t Ht), (take_S_r ts j u Hu), chain_calls_snoc.
      done.
    + intros i x Hi Hx [->%elem_of_singleton | HxF]%elem_of_union.
      * assert (i = S j) by (by eapply NoDup_lookup). lia.
      * apply (HF i x); [lia | done | done].
Qed.
End Chain.

(** X20.  With implied ordering, any number of bare registrations under
    different names makes a chain: requesting the [k]-th name declares,
    from that task back to the first one registered, each task's
    predecessor as its upstream, adds the first task standalone and runs
    the flow; the tasks registered after the requested one are not
    touched. *)
Theorem implied_chain_run h0 fns k n :
  NoDup fns → fns !! k = Some n →
  let '(ts, h, obj) := register_all h0 (init true) fns in
  length ts = length fns ∧ NoDup ts ∧
  run h obj [n] false
  = MkEff (chain_calls (reverse (take (S k) ts)) ++ [FlowRun]) (Ret tt).
Proof.
  intros Hnd Hk.
  destruct (register_all h0 (init true) fns) as [[ts h] obj] eqn:Hreg.
  destruct (register_all_chain h0 (init true) [] [] fns ts h obj)
    as [Hch Hok];
    [by split | apply init_ok | apply init_plain | done | done | done | done |].
  simpl in Hch. pose proof Hch as (Htasks & Hlen & _).
  assert (NoDup ts) as Hts.
  { pose proof (ok_values _ _ Hok) as Hv. unfold dict_values in Hv.
    rewrite Htasks, snd_zip in Hv by lia. done. }
  split; [done|]. split; [done|].
  destruct (lookup_lt_is_Some_2 ts k) as [t Ht];
    [apply lookup_lt_Some in Hk; lia|].
  assert (dict_get (tasks obj) n = Some t) as Hget.
  { apply dict_get_elem; [apply Hok|]. rewrite Htasks.
    apply (list_elem_of_lookup_2 _ k). apply lookup_zip_with_Some.
    by exists n, t. }
  pose proof (chain_walk h obj fns ts k Hch Hnd Hts ∅ t Ht) as Hwalk.
  assert (while_to_visit h obj false (fuel_bound h obj) [t] ∅
          = MkEff (chain_calls (reverse (take (S k) ts))) (Ret tt)) as Hwalk'.
  { rewrite (traverse_any_fuel h obj false (S (S k)));
      rewrite Hwalk; try done; intros; apply not_elem_of_empty. }
  unfold run, run_with. rewrite effective_nonempty by done.
  rewrite for_items_concat.
  - rewrite (requested_tasks_single (tasks obj) n t); [| apply Hok | done].
    by rewrite (list_bind_singleton _ t), Hwalk'.
  - rewrite (requested_tasks_single (tasks obj) n t); [| apply Hok | done].
    intros x ->%list_elem_of_singleton. by rewrite Hwalk'.
Qed.

Lemma implied_chain_run_witness :
  let '(ts, h, obj) := register_all ∅ (init true) ["a"; "b"; "c"; "d"] in
  ts = [0; 1; 2; 3] ∧
  run h obj ["c"] false
  = MkEff [SetDependencies 2 [1]; SetDependencies 1 [0]; AddTask 0; FlowRun]
          (Ret tt).
Proof.
  pose proof (implied_chain_run ∅ ["a"; "b"; "c"; "d"] 2 "c") as H.
  destruct (register_all ∅ (init true) ["a"; "b"; "c"; "d"])
    as [[ts h] obj] eqn:Hreg.
  destruct H as (_ & _ & Hrun); [compute_done | reflexivity |].
  revert Hreg Hrun. vm_compute register_all. intros [= <- <- <-] Hrun.
  split; [reflexivity | exact Hrun].
Defined.
